(** * clean-todolist: the Todo entity, its in-memory repository and the
      dependency invokers, embedded from the TypeScript sources.

    Layout of the development:
    - [JsString], [trim]: JavaScript strings as sequences of UTF-16 code
      units, with [String.prototype.trim];
    - [Completion], [Method]: a state-and-exception monad for methods that
      mutate [this] and may [throw];
    - [Todo] and its methods (domain/entities/Todo.ts);
    - [JsMap]: the insertion-ordered [Map] of ECMAScript, and
      [InMemoryTodoRepository] on top of it;
    - [Invoker]: the three string-keyed registries
      (ServiceInvoker, RepositoryInvoker, LogicInvoker);
    - the use cases on top of the repository, the dependency provider and
      factory on top of the invokers, and the todo store of the user
      interface;
    - the theorems. *)

From Stdlib Require Import ZArith NArith Lia Ascii String Sorted Permutation.
From stdpp Require Import base option list gmap sorting.

Local Open Scope Z_scope.

(** ** JavaScript strings *)

(** A JavaScript string is a finite sequence of UTF-16 code units. *)
Abbreviation JsString := (list N).

(** Literals of the source, written as Rocq strings (all of them ASCII). *)
Definition js (s : string) : JsString :=
  N_of_ascii <$> list_ascii_of_string s.

(** The code units removed by [trim]: ECMAScript's WhiteSpace
    (TAB, VT, FF, ZWNBSP and the Unicode space separators) and
    LineTerminator (LF, CR, LS, PS). All of them lie in the BMP, so the test
    works on single code units. *)
Definition isWhiteSpace (c : N) : bool :=
  ((c =? 0x9) || (c =? 0xA) || (c =? 0xB) || (c =? 0xC) || (c =? 0xD)
   || (c =? 0x20) || (c =? 0xA0) || (c =? 0x1680)
   || ((0x2000 <=? c) && (c <=? 0x200A))
   || (c =? 0x2028) || (c =? 0x2029) || (c =? 0x202F) || (c =? 0x205F)
   || (c =? 0x3000) || (c =? 0xFEFF))%N.

Fixpoint trimStart (s : JsString) : JsString :=
  match s with
  | c :: s' => if isWhiteSpace c then trimStart s' else s
  | [] => []
  end.

Definition trimEnd (s : JsString) : JsString :=
  reverse (trimStart (reverse s)).

(** [String.prototype.trim] *)
Definition trim (s : JsString) : JsString := trimEnd (trimStart s).

(** ** Errors and methods *)

(** [new Error(message)] *)
Record JsError := mkError { message : JsString }.

(** How a call ends: it returns a value or throws. *)
Inductive Completion (A : Type) : Type :=
  | Return (a : A)
  | Throw (e : JsError).
Arguments Return {A} a.
Arguments Throw {A} e.

(** A method on an object with fields [S]: it reads and writes the fields
    and ends with a completion. A throw keeps the writes made before it. *)
Definition Method (S A : Type) : Type := S → Completion A * S.

#[global] Instance method_ret {S} : MRet (Method S) :=
  λ A a s, (Return a, s).

#[global] Instance method_bind {S} : MBind (Method S) :=
  λ A B k m s,
    match m s with
    | (Return a, s') => k a s'
    | (Throw e, s') => (Throw e, s')
    end.

Definition throw {S A} (e : JsError) : Method S A := λ s, (Throw e, s).
Definition this {S} : Method S S := λ s, (Return s, s).
Definition assign {S} (f : S → S) : Method S () := λ s, (Return (), f s).

(** ** The Todo entity (domain/entities/Todo.ts) *)

(** domain/types/TodoStatus.ts: ['pending' | 'completed'] *)
Inductive TodoStatus := PENDING | COMPLETED.

#[global] Instance TodoStatus_eq_dec : EqDecision TodoStatus.
Proof. solve_decision. Defined.

(** A [Date] holds a time value: a whole number of milliseconds since the
    epoch, or [NaN], which makes it the Invalid Date ([new Date(NaN)]). The
    constructor of [Todo] takes either; [new Date()] gives a valid one. A
    number written where a [Date] is expected is the date with that time
    value. *)
Inductive Date :=
  | Time (ms : Z)
  | InvalidDate.
Coercion Time : Z >-> Date.

#[global] Instance Date_eq_dec : EqDecision Date.
Proof. solve_decision. Defined.

(** [getTime()]: the time value, [None] standing for [NaN]. *)
Definition getTime (d : Date) : option Z :=
  match d with
  | Time ms => Some ms
  | InvalidDate => None
  end.

(** [a <= b] and [a < b] on dates compare the time values; a comparison
    with [NaN] is false. *)
Definition Date_le (a b : Date) : Prop :=
  match getTime a, getTime b with
  | Some x, Some y => x ≤ y
  | _, _ => False
  end.

Definition Date_lt (a b : Date) : Prop :=
  match getTime a, getTime b with
  | Some x, Some y => x < y
  | _, _ => False
  end.

Declare Scope date_scope.
Delimit Scope date_scope with date.
Infix "≤" := Date_le : date_scope.
Infix "<" := Date_lt : date_scope.

Record Todo := mkTodo {
  id : JsString;
  title : JsString;
  description : JsString;
  status : TodoStatus;
  createdAt : Date;
  updatedAt : Date
}.

#[global] Instance Todo_eq_dec : EqDecision Todo.
Proof. solve_decision. Defined.

(** Field assignments [this.f = v]. *)
Definition set_title (v : JsString) (t : Todo) : Todo :=
  mkTodo (id t) v (description t) (status t) (createdAt t) (updatedAt t).
Definition set_description (v : JsString) (t : Todo) : Todo :=
  mkTodo (id t) (title t) v (status t) (createdAt t) (updatedAt t).
Definition set_status (v : TodoStatus) (t : Todo) : Todo :=
  mkTodo (id t) (title t) (description t) v (createdAt t) (updatedAt t).
Definition set_updatedAt (v : Date) (t : Todo) : Todo :=
  mkTodo (id t) (title t) (description t) (status t) (createdAt t) v.

Definition canBeCompleted (t : Todo) : bool :=
  bool_decide (status t = PENDING) && (0 <? length (trim (title t)))%nat.

Definition canBeUncompleted (t : Todo) : bool :=
  bool_decide (status t = COMPLETED).

Definition isCompleted (t : Todo) : bool :=
  bool_decide (status t = COMPLETED).

Definition isPending (t : Todo) : bool :=
  bool_decide (status t = PENDING).

(** In the four mutating methods [now] is the value of [new Date()], the
    reading of the system clock at the call. *)

Definition complete (now : Date) : Method Todo () :=
  t ← this;
  if negb (canBeCompleted t)
  then throw (mkError (js "Todo cannot be completed"))
  else assign (set_status COMPLETED);; assign (set_updatedAt now).

Definition uncomplete (now : Date) : Method Todo () :=
  t ← this;
  if negb (canBeUncompleted t)
  then throw (mkError (js "Todo is not completed"))
  else assign (set_status PENDING);; assign (set_updatedAt now).

Definition updateTitle (now : Date) (newTitle : JsString) : Method Todo () :=
  if (length (trim newTitle) =? 0)%nat
  then throw (mkError (js "Title cannot be empty"))
  else assign (set_title (trim newTitle));; assign (set_updatedAt now).

Definition updateDescription (now : Date) (newDescription : JsString)
  : Method Todo () :=
  assign (set_description (trim newDescription));; assign (set_updatedAt now).

(** ** The ECMAScript Map *)

(** A [Map<string, V>] keeps its entries in insertion order: [set] on a new
    key appends an entry, [set] on a present key replaces the value in
    place, [delete] removes the entry. [get] gives [None] for [undefined].
    The entries are a list of pairs; in the lists a [Map] can be ([wf]) a key
    has one entry, the one [delete] filters out. *)
Module JsMap.
Abbreviation t V := (list (JsString * V)).

Section JsMap.
Context {V : Type}.
Implicit Types m : t V.

Definition empty : t V := [].

Fixpoint get (k : JsString) m : option V :=
  match m with
  | [] => None
  | (k', v) :: m' => if decide (k = k') then Some v else get k m'
  end.

Definition has (k : JsString) m : bool :=
  match get k m with Some _ => true | None => false end.

Fixpoint set (k : JsString) (v : V) m : t V :=
  match m with
  | [] => [(k, v)]
  | (k', v') :: m' =>
      if decide (k = k') then (k, v) :: m' else (k', v') :: set k v m'
  end.

Definition delete (k : JsString) m : t V :=
  filter (λ e, e.1 ≠ k) m.

Definition values m : list V := m.*2.

Definition keys m : list JsString := m.*1.

(** The states a [Map] can be in: no key occurs twice. *)
Definition wf m : Prop := NoDup (keys m).
End JsMap.
End JsMap.

(** ** Array.prototype.sort *)

(** [sort compareFn] is stable: [a] is placed before [b] when
    [compareFn a b < 0], after it when [compareFn a b > 0], and the two keep
    their order when it is [0]. What [compareFn] returns is a number, [None]
    standing for [NaN], which [sort] reads as [+0]. The stable insertion sort
    below computes the one list that meets this for a consistent [compareFn].
    For a [compareFn] that is not consistent, as one that returns [NaN] for
    some pairs only, ECMAScript leaves the order to the implementation: what
    is proved below about the order of the result is proved for consistent
    comparators, and the one run at an inconsistent comparator,
    [findAll_counterexample], is on an array that V8 leaves as it is, as the
    sort below does. *)
Section sort.
Context {A : Type} (compareFn : A → A → option Z).

Fixpoint sort_insert (x : A) (l : list A) : list A :=
  match l with
  | [] => [x]
  | y :: l' =>
      if default 0 (compareFn x y) <=? 0
      then x :: y :: l' else y :: sort_insert x l'
  end.

Definition sort (l : list A) : list A := foldr sort_insert [] l.
End sort.

(** ** InMemoryTodoRepository *)

(** The repository's only field is [todos : Map<string, Todo>]; its methods
    are [async], a rejected promise being a [Throw]. The map holds the
    fields a todo has when it is written: no statement below lets a caller
    mutate a stored todo between two calls of the repository. *)
Module InMemoryTodoRepository.

(** [(a, b) => b.createdAt.getTime() - a.createdAt.getTime()]: the
    difference of the two time values, [NaN] as soon as one of them is
    [NaN]. The sort uses only the sign of the result. *)
Definition byCreatedAtDesc (a b : Todo) : option Z :=
  match getTime (createdAt b), getTime (createdAt a) with
  | Some tb, Some ta => Some (tb - ta)
  | _, _ => None
  end.

Definition findAll : Method (JsMap.t Todo) (list Todo) :=
  todos ← this;
  mret (sort byCreatedAtDesc (JsMap.values todos)).

(** [this.todos.get(id) || null]: a Todo object is truthy, so the result
    is the stored todo, or [None] for [null]. *)
Definition findById (id : JsString) : Method (JsMap.t Todo) (option Todo) :=
  todos ← this;
  mret (match JsMap.get id todos with Some todo => Some todo | None => None end).

Definition create (todo : Todo) : Method (JsMap.t Todo) Todo :=
  assign (JsMap.set (id todo) todo);;
  mret todo.

Definition notFound (id : JsString) : JsError :=
  mkError (js "Todo with id " ++ id ++ js " not found").

Definition update (todo : Todo) : Method (JsMap.t Todo) Todo :=
  todos ← this;
  if negb (JsMap.has (id todo) todos)
  then throw (notFound (id todo))
  else assign (JsMap.set (id todo) todo);; mret todo.

Definition delete (id : JsString) : Method (JsMap.t Todo) () :=
  todos ← this;
  if negb (JsMap.has id todos)
  then throw (notFound id)
  else assign (JsMap.delete id).

(** The variant of the architecture notes, whose [findAll] is
    [Array.from(this.todos.values())]: insertion order, no sort. *)
Definition findAll_insertionOrder : Method (JsMap.t Todo) (list Todo) :=
  todos ← this;
  mret (JsMap.values todos).

End InMemoryTodoRepository.

(** ** The invokers *)

(** What a registry of [Map<string, unknown>] can hold. Numbers are the
    integer-valued ones and [NaN]; an object is known by its reference. *)
Inductive JsValue :=
  | JsUndefined
  | JsNull
  | JsBoolean (b : bool)
  | JsNumber (n : Z)
  | JsNaN
  | JsStr (s : JsString)
  | JsObject (ref : nat).

#[global] Instance JsValue_eq_dec : EqDecision JsValue.
Proof. solve_decision. Defined.

(** ToBoolean: [undefined], [null], [false], [0], [NaN] and the empty string
    are falsy, everything else is truthy. *)
Definition toBoolean (v : JsValue) : bool :=
  match v with
  | JsUndefined | JsNull | JsNaN => false
  | JsBoolean b => b
  | JsNumber n => negb (n =? 0)
  | JsStr s => negb (length s =? 0)%nat
  | JsObject _ => true
  end.

(** ServiceInvoker, RepositoryInvoker and LogicInvoker are one class up to
    the name of the field and the first word of the error message. *)
Module Invoker.
Section Invoker.
Variable kind : JsString.

(** [`${kind} '${name}' not found. Did you register it?`] *)
Definition notFound (name : JsString) : JsError :=
  mkError (kind ++ js " '" ++ name ++ js "' not found. Did you register it?").

Definition register (name : JsString) (x : JsValue)
  : Method (gmap JsString JsValue) () :=
  assign (insert name x).

(** [Map.prototype.get] gives [undefined] for a missing key. *)
Definition invoke (name : JsString) : Method (gmap JsString JsValue) JsValue :=
  m ← this;
  let x := default JsUndefined (m !! name) in
  if negb (toBoolean x) then throw (notFound name) else mret x.

Definition has (name : JsString) : Method (gmap JsString JsValue) bool :=
  m ← this;
  mret (bool_decide (is_Some (m !! name))).

Definition clear : Method (gmap JsString JsValue) () :=
  assign (λ _, ∅).
End Invoker.
End Invoker.

Module ServiceInvoker.
Definition register := Invoker.register.
Definition invoke := Invoker.invoke (js "Service").
Definition has := Invoker.has.
Definition clear := Invoker.clear.
End ServiceInvoker.

Module RepositoryInvoker.
Definition register := Invoker.register.
Definition invoke := Invoker.invoke (js "Repository").
Definition has := Invoker.has.
Definition clear := Invoker.clear.
End RepositoryInvoker.

Module LogicInvoker.
Definition register := Invoker.register.
Definition invoke := Invoker.invoke (js "Logic").
Definition has := Invoker.has.
Definition clear := Invoker.clear.
End LogicInvoker.

(** ** The use cases (application/use-cases) *)

(** A use case is given an [ITodoRepository]; [DependencyContainer] gives it
    the [InMemoryTodoRepository], which is the one used here. A call runs
    from its start to its end: calls that overlap at an [await] are not
    modelled. *)

(** A method called on the todo [t] that the repository's Map holds under
    the key [k]. The Map holds the object itself, so what the method writes
    shows in the Map at once, whether the method returns or throws. The call
    gives back the object. *)
Definition onStored (k : JsString) (t : Todo) (m : Method Todo ())
  : Method (JsMap.t Todo) Todo :=
  λ todos,
    match m t with
    | (Return _, t') => (Return t', JsMap.set k t' todos)
    | (Throw e, t') => (Throw e, JsMap.set k t' todos)
    end.

(** The declaration of [CreateTodoRequest] is not among the sources; the
    record has the two fields [execute] reads, strings both, [trim] being
    called on them. *)
Module CreateTodoRequest.
Record t := mk { title : JsString; description : JsString }.
End CreateTodoRequest.

(** The declaration of [UpdateTodoRequest] is not among the sources; the
    record has the three fields [execute] reads. [title] and [description]
    are compared with [undefined], which is [None] here. *)
Module UpdateTodoRequest.
Record t := mk {
  id : JsString;
  title : option JsString;
  description : option JsString
}.
End UpdateTodoRequest.

Module CreateTodoUseCase.

(** [newId] is what [generateId()] gives, a string made of [Date.now()] and
    [Math.random()]; [now1] and [now2] are the two readings [new Date()] of
    the clock. [!request.title.trim()] holds for the empty string only. *)
Definition execute (newId : JsString) (now1 now2 : Date)
    (request : CreateTodoRequest.t) : Method (JsMap.t Todo) Todo :=
  if negb (toBoolean (JsStr (trim (CreateTodoRequest.title request))))
  then throw (mkError (js "Title cannot be empty"))
  else
    let todo :=
      mkTodo newId
             (trim (CreateTodoRequest.title request))
             (trim (CreateTodoRequest.description request))
             PENDING now1 now2 in
    InMemoryTodoRepository.create todo.

End CreateTodoUseCase.

Module GetAllTodosUseCase.

Definition execute : Method (JsMap.t Todo) (list Todo) :=
  InMemoryTodoRepository.findAll.

End GetAllTodosUseCase.

Module UpdateTodoUseCase.

(** [now1] is the clock reading of [updateTitle], [now2] the one of
    [updateDescription]. *)
Definition execute (now1 now2 : Date) (request : UpdateTodoRequest.t)
  : Method (JsMap.t Todo) Todo :=
  found ← InMemoryTodoRepository.findById (UpdateTodoRequest.id request);
  match found with
  | None =>
      throw (mkError (js "Todo with id " ++ UpdateTodoRequest.id request
                      ++ js " not found"))
  | Some todo =>
      todo ← match UpdateTodoRequest.title request with
             | Some newTitle =>
                 onStored (UpdateTodoRequest.id request) todo
                          (updateTitle now1 newTitle)
             | None => mret todo
             end;
      todo ← match UpdateTodoRequest.description request with
             | Some newDescription =>
                 onStored (UpdateTodoRequest.id request) todo
                          (updateDescription now2 newDescription)
             | None => mret todo
             end;
      InMemoryTodoRepository.update todo
  end.

End UpdateTodoUseCase.

Module ToggleTodoStatusUseCase.

Definition execute (now : Date) (id : JsString) : Method (JsMap.t Todo) Todo :=
  found ← InMemoryTodoRepository.findById id;
  match found with
  | None => throw (mkError (js "Todo with id " ++ id ++ js " not found"))
  | Some todo =>
      todo ← onStored id todo
               (if isPending todo then complete now else uncomplete now);
      InMemoryTodoRepository.update todo
  end.

End ToggleTodoStatusUseCase.

(** What a caller can ask of the repository through the use cases. The
    source of [DeleteTodoUseCase] is not among the files; the repository's
    own [delete] stands for it. *)
Inductive Request :=
  | CreateTodo (newId : JsString) (now1 now2 : Date) (request : CreateTodoRequest.t)
  | UpdateTodo (now1 now2 : Date) (request : UpdateTodoRequest.t)
  | ToggleTodoStatus (now : Date) (id : JsString)
  | GetAllTodos
  | DeleteTodo (id : JsString).

(** The store a request leaves behind, whether it returns or throws. *)
Definition serve (r : Request) (todos : JsMap.t Todo) : JsMap.t Todo :=
  match r with
  | CreateTodo newId now1 now2 request =>
      (CreateTodoUseCase.execute newId now1 now2 request todos).2
  | UpdateTodo now1 now2 request =>
      (UpdateTodoUseCase.execute now1 now2 request todos).2
  | ToggleTodoStatus now id => (ToggleTodoStatusUseCase.execute now id todos).2
  | GetAllTodos => (GetAllTodosUseCase.execute todos).2
  | DeleteTodo id => (InMemoryTodoRepository.delete id todos).2
  end.

Definition serveAll (rs : list Request) (todos : JsMap.t Todo) : JsMap.t Todo :=
  foldl (λ todos r, serve r todos) todos rs.

(** The invariants of the store: every entry sits under the id of its todo,
    and every stored title has a character that is not white space. *)
Definition keyed (todos : JsMap.t Todo) : Prop :=
  Forall (λ e, id e.2 = e.1) todos.

Definition titled (todos : JsMap.t Todo) : Prop :=
  Forall (λ e, trim (title e.2) ≠ []) todos.

(** ** The entity's operations as data *)

(** One call of a mutating method, with the clock reading it sees. *)
Inductive Op :=
  | Complete
  | Uncomplete
  | UpdateTitle (newTitle : JsString)
  | UpdateDescription (newDescription : JsString).

Definition call (op : Op) (now : Date) : Method Todo () :=
  match op with
  | Complete => complete now
  | Uncomplete => uncomplete now
  | UpdateTitle newTitle => updateTitle now newTitle
  | UpdateDescription newDescription => updateDescription now newDescription
  end.

(** A caller that makes the calls one after the other and goes on after a
    throw. *)
Fixpoint calls (cs : list (Op * Date)) (t : Todo) : Todo :=
  match cs with
  | [] => t
  | (op, now) :: cs' => calls cs' (call op now t).2
  end.

(** The todos a caller can hold: the constructor takes any six values, and
    the methods lead from one todo to the next. *)
Inductive reachable : Todo → Prop :=
  | reachable_new i ti d st c u : reachable (mkTodo i ti d st c u)
  | reachable_call op now t : reachable t → reachable (call op now t).2.

(** ** The order of [findAll] *)

(** Newest first. *)
Definition newerFirst (a b : Todo) : Prop :=
  (createdAt b ≤ createdAt a)%date.

(** The todos whose [createdAt] is a valid date. *)
Definition validCreatedAt (t : Todo) : Prop := createdAt t ≠ InvalidDate.

(** ** Sample entities *)

Definition buyMilk : Todo :=
  mkTodo (js "t1") (js "Buy milk") [] PENDING 1000 1000.
Definition payRent : Todo :=
  mkTodo (js "t2") (js "Pay rent") [] COMPLETED 1000 2000.
Definition blank : Todo :=
  mkTodo (js "t3") (js "   ") [] PENDING 1000 1000.

(** A todo constructed with the latest time value a [Date] can hold. *)
Definition farFuture : Todo :=
  mkTodo (js "t4") (js "Buy milk") [] PENDING 8640000000000000 8640000000000000.

(** A todo constructed with [updatedAt] before [createdAt]. *)
Definition backdated : Todo :=
  mkTodo (js "t5") (js "Buy milk") [] PENDING 2000 1000.

(** A todo constructed with the Invalid Date, and a store that holds it
    between an older and a newer todo. *)
Definition undated : Todo :=
  mkTodo (js "x") (js "X") [] PENDING InvalidDate InvalidDate.

(** Two stored todos created one second apart. *)
Definition older : Todo := mkTodo (js "a") (js "A") [] PENDING 1000 1000.
Definition newer : Todo := mkTodo (js "b") (js "B") [] PENDING 2000 2000.
Definition twoTodos : JsMap.t Todo := [(js "a", older); (js "b", newer)].
Definition undatedStore : JsMap.t Todo :=
  [(js "a", older); (js "x", undated); (js "b", newer)].

(** A store with two todos created at one instant. *)
Definition olderTwin : Todo := mkTodo (js "c") (js "C") [] PENDING 1000 1000.
Definition sameInstant : JsMap.t Todo :=
  [(js "a", older); (js "b", newer); (js "c", olderTwin)].

(** A todo completed with a title of white space only. *)
Definition blankDone : Todo :=
  mkTodo (js "t6") (js "   ") [] COMPLETED 1000 2000.

(** Stores of one entry. *)
Definition oneTodo : JsMap.t Todo := [(js "t1", buyMilk)].
Definition blankStore : JsMap.t Todo := [(js "t3", blank)].

(** ** The dependency provider and factory *)

(** The objects the provider makes with [new]. A [TodoService] keeps the
    repository its constructor is given. *)
Inductive Obj :=
  | InMemoryTodoRepositoryObj (todos : JsMap.t Todo)
  | TodoServiceObj (todoRepository : nat).

(** The statics of the process: the Maps of the three invoker singletons,
    the provider's flag, whether the factory's instance exists, and the
    objects made so far, an object's reference being its place in [heap]. An
    invoker singleton is made on the first [getInstance()] with an empty Map;
    here its Map is empty from the start. *)
Record World := mkWorld {
  heap : list Obj;
  repositories : gmap JsString JsValue;
  services : gmap JsString JsValue;
  logics : gmap JsString JsValue;
  initialized : bool;
  factoryInstance : bool
}.

Definition set_heap (v : list Obj) (w : World) : World :=
  mkWorld v (repositories w) (services w) (logics w) (initialized w)
          (factoryInstance w).
Definition set_repositories (v : gmap JsString JsValue) (w : World) : World :=
  mkWorld (heap w) v (services w) (logics w) (initialized w)
          (factoryInstance w).
Definition set_services (v : gmap JsString JsValue) (w : World) : World :=
  mkWorld (heap w) (repositories w) v (logics w) (initialized w)
          (factoryInstance w).
Definition set_logics (v : gmap JsString JsValue) (w : World) : World :=
  mkWorld (heap w) (repositories w) (services w) v (initialized w)
          (factoryInstance w).
Definition set_initialized (v : bool) (w : World) : World :=
  mkWorld (heap w) (repositories w) (services w) (logics w) v
          (factoryInstance w).
Definition set_factoryInstance (v : bool) (w : World) : World :=
  mkWorld (heap w) (repositories w) (services w) (logics w) (initialized w) v.

(** What [getInstance()] of an invoker class gives: the one instance. *)
Inductive InvokerRef := TheRepositoryInvoker | TheServiceInvoker | TheLogicInvoker.

Definition registry (i : InvokerRef) (w : World) : gmap JsString JsValue :=
  match i with
  | TheRepositoryInvoker => repositories w
  | TheServiceInvoker => services w
  | TheLogicInvoker => logics w
  end.

Definition set_registry (i : InvokerRef) (v : gmap JsString JsValue)
    (w : World) : World :=
  match i with
  | TheRepositoryInvoker => set_repositories v w
  | TheServiceInvoker => set_services v w
  | TheLogicInvoker => set_logics v w
  end.

(** A method of an invoker, called on the instance [i]. *)
Definition on {A} (i : InvokerRef) (m : Method (gmap JsString JsValue) A)
  : Method World A :=
  λ w, match m (registry i w) with (r, v) => (r, set_registry i v w) end.

(** [invoke] of the class of [i], with its own error message. *)
Definition invokeOn (i : InvokerRef) (name : JsString) : Method World JsValue :=
  match i with
  | TheRepositoryInvoker => on i (RepositoryInvoker.invoke name)
  | TheServiceInvoker => on i (ServiceInvoker.invoke name)
  | TheLogicInvoker => on i (LogicInvoker.invoke name)
  end.

(** [new C(..)]: the object goes to the end of the heap. *)
Definition new (o : Obj) : Method World nat :=
  λ w, (Return (length (heap w)), set_heap (heap w ++ [o]) w).

Module AppDependencyProvider.

Definition initialize : Method World () :=
  w ← this;
  if initialized w then mret ()
  else
    todoRepository ← new (InMemoryTodoRepositoryObj JsMap.empty);
    on TheRepositoryInvoker
       (RepositoryInvoker.register (js "todoRepository")
                                   (JsObject todoRepository));;
    todoService ← new (TodoServiceObj todoRepository);
    on TheServiceInvoker
       (ServiceInvoker.register (js "todoService") (JsObject todoService));;
    assign (set_initialized true).

Definition getRepositoryInvoker : Method World InvokerRef :=
  initialize;; mret TheRepositoryInvoker.

Definition getServiceInvoker : Method World InvokerRef :=
  initialize;; mret TheServiceInvoker.

Definition reset : Method World () :=
  on TheRepositoryInvoker RepositoryInvoker.clear;;
  on TheServiceInvoker ServiceInvoker.clear;;
  assign (set_initialized false).

End AppDependencyProvider.

Module AppDependencyFactory.

(** The private constructor runs [AppDependencyProvider.initialize()]. *)
Definition getInstance : Method World () :=
  w ← this;
  if negb (factoryInstance w)
  then AppDependencyProvider.initialize;; assign (set_factoryInstance true)
  else mret ().

Definition getRepositoryInvoker : Method World InvokerRef :=
  AppDependencyProvider.getRepositoryInvoker.

Definition getServiceInvoker : Method World InvokerRef :=
  AppDependencyProvider.getServiceInvoker.

Definition getLogicInvoker : Method World InvokerRef :=
  mret TheLogicInvoker.

Definition reset : Method World () :=
  AppDependencyProvider.reset;;
  on TheLogicInvoker LogicInvoker.clear.

End AppDependencyFactory.

(** ** The todo store of the user interface (zustand) *)

Module TodoStore.

Record State := mk {
  todos : list Todo;
  isLoading : bool;
  error : option JsString
}.

(** The initial state. *)
Definition initial : State := mk [] false None.

(** Each action is [set] with the fields to replace; the others stay. *)
Definition setTodos (ts : list Todo) (s : State) : State :=
  mk ts (isLoading s) None.

Definition addTodo (todo : Todo) (s : State) : State :=
  mk (todo :: todos s) (isLoading s) None.

Definition updateTodo (todo : Todo) (s : State) : State :=
  mk ((λ t, if decide (id t = id todo) then todo else t) <$> todos s)
     (isLoading s) None.

Definition removeTodo (k : JsString) (s : State) : State :=
  mk (filter (λ t, id t ≠ k) (todos s)) (isLoading s) None.

Definition setLoading (b : bool) (s : State) : State :=
  mk (todos s) b (error s).

Definition setError (e : option JsString) (s : State) : State :=
  mk (todos s) false e.

End TodoStore.

(** A world in which something is registered and stored already. *)
Definition usedWorld : World :=
  mkWorld [InMemoryTodoRepositoryObj oneTodo; TodoServiceObj 0]
          {[ js "todoRepository" := JsObject 0 ]}
          {[ js "todoService" := JsObject 1 ]}
          {[ js "todoLogic" := JsObject 7 ]}
          true true.

(** * Theorems *)

(** ** Runs on sample inputs *)

Example trim_ex : trim (js "  Buy milk  ") = js "Buy milk".
Proof. reflexivity. Qed.

Example complete_ex :
  complete 7 (mkTodo (js "t1") (js "Buy milk") [] PENDING 1 1)
  = (Return (), mkTodo (js "t1") (js "Buy milk") [] COMPLETED 1 7).
Proof. reflexivity. Qed.

Example findAll_ex :
  let a := mkTodo (js "a") (js "A") [] PENDING 1000 1000 in
  let b := mkTodo (js "b") (js "B") [] PENDING 2000 2000 in
  let c := mkTodo (js "c") (js "C") [] PENDING 1000 3000 in
  (InMemoryTodoRepository.create a;; InMemoryTodoRepository.create b;;
   InMemoryTodoRepository.create c;; InMemoryTodoRepository.findAll)
    JsMap.empty
  = (Return [b; a; c], [(js "a", a); (js "b", b); (js "c", c)]).
Proof. reflexivity. Qed.

Example findAll_insertionOrder_ex :
  InMemoryTodoRepository.findAll_insertionOrder twoTodos
  = (Return [older; newer], twoTodos).
Proof. reflexivity. Qed.

Example invoke_ex :
  (ServiceInvoker.register (js "todoService") (JsObject 1);;
   ServiceInvoker.invoke (js "todoService")) ∅
  = (Return (JsObject 1), {[ js "todoService" := JsObject 1 ]}).
Proof. reflexivity. Qed.

(** ** trim *)

Lemma trimStart_blank (s : JsString) :
  Forall (λ c, isWhiteSpace c = true) s → trimStart s = [].
Proof.
  induction 1 as [|c s Hc _ IH]; simpl; [done|]. by rewrite Hc.
Qed.

Lemma trim_blank (s : JsString) :
  Forall (λ c, isWhiteSpace c = true) s → trim s = [].
Proof.
  intros Hs. unfold trim, trimEnd. by rewrite (trimStart_blank s Hs).
Qed.

Lemma trim_length_0 (s : JsString) : (length (trim s) =? 0)%nat = true ↔ trim s = [].
Proof.
  rewrite Nat.eqb_eq. split; [apply nil_length_inv | by intros ->].
Qed.

Lemma trim_length_pos (s : JsString) : (0 <? length (trim s))%nat = true ↔ trim s ≠ [].
Proof.
  rewrite Nat.ltb_lt. destruct (trim s); simpl; split; try done; lia.
Qed.

Lemma trimStart_suffix (s : JsString) : ∃ p, s = p ++ trimStart s.
Proof.
  induction s as [|c s [p IH]]; simpl; [by exists []|].
  destruct (isWhiteSpace c); [|by exists []].
  exists (c :: p). simpl. by rewrite <-IH.
Qed.

Lemma trimStart_decompose (s : JsString) :
  ∃ p, s = p ++ trimStart s ∧ Forall (λ c, isWhiteSpace c = true) p.
Proof.
  induction s as [|c s (p & IH & Hp)]; simpl; [by exists []|].
  destruct (isWhiteSpace c) eqn:E; [|by exists []].
  exists (c :: p). split; [simpl; by rewrite <-IH | by constructor].
Qed.

(** What [trim] takes away is white space, at the two ends. *)
Lemma trim_decompose (s : JsString) :
  ∃ p q, s = p ++ trim s ++ q ∧
         Forall (λ c, isWhiteSpace c = true) p ∧
         Forall (λ c, isWhiteSpace c = true) q.
Proof.
  destruct (trimStart_decompose s) as (p & Hs & Hp).
  destruct (trimStart_decompose (reverse (trimStart s))) as (q & Hr & Hq).
  exists p, (reverse q). split; [|split; [done|by apply Forall_reverse]].
  unfold trim, trimEnd. rewrite <-reverse_app, <-Hr, reverse_involutive.
  exact Hs.
Qed.

Lemma trimStart_head (s : JsString) (c : N) :
  head (trimStart s) = Some c → isWhiteSpace c = false.
Proof.
  induction s as [|c' s IH]; simpl; [done|].
  destruct (isWhiteSpace c') eqn:E; [done|]. simpl. by intros [= <-].
Qed.

Lemma trimStart_fixed (s : JsString) :
  (∀ c, head s = Some c → isWhiteSpace c = false) → trimStart s = s.
Proof.
  destruct s as [|c s]; simpl; [done|]. intros H. by rewrite (H c).
Qed.

Lemma trim_head (s : JsString) (c : N) :
  head (trim s) = Some c → isWhiteSpace c = false.
Proof.
  unfold trim, trimEnd. rewrite head_reverse. intros Hlast.
  destruct (trimStart_suffix (reverse (trimStart s))) as [p Hp].
  assert (Hl : last (reverse (trimStart s)) = Some c).
  { rewrite Hp. destruct (trimStart (reverse (trimStart s))) as [|x l] eqn:E.
    - done.
    - by rewrite last_app_cons. }
  rewrite last_reverse in Hl. by apply trimStart_head in Hl.
Qed.

Lemma trim_last (s : JsString) (c : N) :
  last (trim s) = Some c → isWhiteSpace c = false.
Proof.
  unfold trim, trimEnd. rewrite last_reverse. apply trimStart_head.
Qed.

(** Trimming a trimmed string changes nothing. *)
Lemma trim_trim (s : JsString) : trim (trim s) = trim s.
Proof.
  unfold trim at 1. rewrite (trimStart_fixed (trim s)) by apply trim_head.
  unfold trimEnd. rewrite trimStart_fixed.
  - apply reverse_involutive.
  - intros c. rewrite head_reverse. apply trim_last.
Qed.

(** ** The entity's guards *)

Lemma canBeCompleted_true (t : Todo) :
  canBeCompleted t = true ↔ status t = PENDING ∧ trim (title t) ≠ [].
Proof.
  unfold canBeCompleted.
  by rewrite andb_true_iff, bool_decide_eq_true, trim_length_pos.
Qed.

Lemma canBeCompleted_false (t : Todo) :
  canBeCompleted t = false ↔ status t ≠ PENDING ∨ trim (title t) = [].
Proof.
  rewrite <-not_true_iff_false, canBeCompleted_true.
  destruct (decide (status t = PENDING)), (decide (trim (title t) = [])); tauto.
Qed.

Lemma canBeUncompleted_true (t : Todo) :
  canBeUncompleted t = true ↔ status t = COMPLETED.
Proof. unfold canBeUncompleted. by rewrite bool_decide_eq_true. Qed.

Lemma canBeUncompleted_false (t : Todo) :
  canBeUncompleted t = false ↔ status t ≠ COMPLETED.
Proof. unfold canBeUncompleted. by rewrite bool_decide_eq_false. Qed.

(** Unfolds a method down to its case analysis. *)
Ltac run_method :=
  unfold mbind, mret, method_bind, method_ret, this, throw, assign; simpl.

Lemma complete_throw (now : Date) (t : Todo) :
  canBeCompleted t = false →
  complete now t = (Throw (mkError (js "Todo cannot be completed")), t).
Proof. intros H. unfold complete. run_method. by rewrite H. Qed.

Lemma complete_return (now : Date) (t : Todo) :
  canBeCompleted t = true →
  complete now t
  = (Return (), mkTodo (id t) (title t) (description t) COMPLETED (createdAt t) now).
Proof. intros H. unfold complete. run_method. by rewrite H. Qed.

Lemma uncomplete_throw (now : Date) (t : Todo) :
  canBeUncompleted t = false →
  uncomplete now t = (Throw (mkError (js "Todo is not completed")), t).
Proof. intros H. unfold uncomplete. run_method. by rewrite H. Qed.

Lemma uncomplete_return (now : Date) (t : Todo) :
  canBeUncompleted t = true →
  uncomplete now t
  = (Return (), mkTodo (id t) (title t) (description t) PENDING (createdAt t) now).
Proof. intros H. unfold uncomplete. run_method. by rewrite H. Qed.

Lemma updateTitle_throw (now : Date) (newTitle : JsString) (t : Todo) :
  trim newTitle = [] →
  updateTitle now newTitle t = (Throw (mkError (js "Title cannot be empty")), t).
Proof. intros H. unfold updateTitle. by rewrite H. Qed.

Lemma updateTitle_return (now : Date) (newTitle : JsString) (t : Todo) :
  trim newTitle ≠ [] →
  updateTitle now newTitle t
  = (Return (),
     mkTodo (id t) (trim newTitle) (description t) (status t) (createdAt t) now).
Proof.
  intros H. unfold updateTitle.
  destruct (length (trim newTitle) =? 0)%nat eqn:E; [|done].
  by apply trim_length_0 in E.
Qed.

Lemma updateDescription_return (now : Date) (newDescription : JsString) (t : Todo) :
  updateDescription now newDescription t
  = (Return (),
     mkTodo (id t) (title t) (trim newDescription) (status t) (createdAt t) now).
Proof. reflexivity. Qed.

(** C1. [complete()] throws [Error('Todo cannot be completed')], the
    DomainRuleViolation of the specification, exactly when
    [canBeCompleted()] is false, that is when the status is not pending or
    the trimmed title is empty, and then leaves the todo as it was; when
    [canBeCompleted()] is true it returns, with the status set to completed
    and [updatedAt] set to the current time. A pending todo with a non-blank
    title is completed by a first call and makes a second call throw. *)
Theorem complete_spec (now : Date) (t : Todo) :
  (canBeCompleted t = false ↔ status t ≠ PENDING ∨ trim (title t) = []) ∧
  (canBeCompleted t = false ↔ ∃ e, (complete now t).1 = Throw e) ∧
  (canBeCompleted t = false →
     complete now t = (Throw (mkError (js "Todo cannot be completed")), t)) ∧
  (canBeCompleted t = true →
     complete now t
     = (Return (),
        mkTodo (id t) (title t) (description t) COMPLETED (createdAt t) now)) ∧
  (status t = PENDING → trim (title t) ≠ [] →
     ∀ now', ∃ t',
       complete now t = (Return (), t') ∧
       complete now' t' = (Throw (mkError (js "Todo cannot be completed")), t')).
Proof.
  split; [apply canBeCompleted_false|].
  split; [|split; [apply complete_throw|split; [apply complete_return|]]].
  - split.
    + intros H. rewrite (complete_throw _ _ H). eauto.
    + intros [e He]. destruct (canBeCompleted t) eqn:E; [|done].
      by rewrite (complete_return _ _ E) in He.
  - intros Hs Ht now'. eexists. split.
    + apply complete_return, canBeCompleted_true. done.
    + apply complete_throw, canBeCompleted_false. by left.
Qed.

Lemma complete_spec_witness :
  (canBeCompleted blank = false ∧
   complete 5000 blank = (Throw (mkError (js "Todo cannot be completed")), blank)) ∧
  (status buyMilk = PENDING ∧ trim (title buyMilk) ≠ [] ∧
   ∃ t', complete 5000 buyMilk = (Return (), t') ∧
         complete 6000 t' = (Throw (mkError (js "Todo cannot be completed")), t')).
Proof.
  split.
  - split; [reflexivity|].
    apply (proj1 (proj2 (proj2 (complete_spec 5000 blank)))). reflexivity.
  - split; [reflexivity|]. split; [discriminate|].
    apply (proj2 (proj2 (proj2 (proj2 (complete_spec 5000 buyMilk))))).
    + reflexivity.
    + discriminate.
Defined.




(** C6. The strict [uncomplete()]: on a todo whose status is not completed
    it throws [Error('Todo is not completed')], the DomainRuleViolation of
    the specification, and leaves the todo as it was; on a completed todo it
    returns, with the status set to pending and [updatedAt] set to the
    current time. *)
Theorem uncomplete_spec (now : Date) (t : Todo) :
  (canBeUncompleted t = true ↔ status t = COMPLETED) ∧
  (status t ≠ COMPLETED →
     uncomplete now t = (Throw (mkError (js "Todo is not completed")), t)) ∧
  (status t = COMPLETED →
     uncomplete now t
     = (Return (),
        mkTodo (id t) (title t) (description t) PENDING (createdAt t) now)).
Proof.
  split; [apply canBeUncompleted_true|]. split.
  - intros H. by apply uncomplete_throw, canBeUncompleted_false.
  - intros H. by apply uncomplete_return, canBeUncompleted_true.
Qed.

Lemma uncomplete_spec_witness :
  (status buyMilk ≠ COMPLETED ∧
   uncomplete 5000 buyMilk
   = (Throw (mkError (js "Todo is not completed")), buyMilk)) ∧
  (status payRent = COMPLETED ∧
   uncomplete 5000 payRent
   = (Return (), mkTodo (js "t2") (js "Pay rent") [] PENDING 1000 5000)).
Proof.
  split.
  - split; [discriminate|].
    apply (proj1 (proj2 (uncomplete_spec 5000 buyMilk))). discriminate.
  - split; [reflexivity|].
    apply (proj2 (proj2 (uncomplete_spec 5000 payRent))). reflexivity.
Defined.

(** C7. [updateDescription] never throws, whatever the string: it sets the
    description to the trimmed [newDescription] and [updatedAt] to the
    current time. The trimmed value is [newDescription] without the white
    space at its two ends: what is taken away in front and behind is white
    space only, and what is stored neither starts nor ends with white space.
    The empty string and a string of white space only both give the empty
    description. *)
Theorem updateDescription_spec (now : Date) (newDescription : JsString) (t : Todo) :
  updateDescription now newDescription t
  = (Return (),
     mkTodo (id t) (title t) (trim newDescription) (status t) (createdAt t) now) ∧
  (∃ p q, newDescription = p ++ trim newDescription ++ q ∧
          Forall (λ c, isWhiteSpace c = true) p ∧
          Forall (λ c, isWhiteSpace c = true) q) ∧
  (∀ c, head (trim newDescription) = Some c → isWhiteSpace c = false) ∧
  (∀ c, last (trim newDescription) = Some c → isWhiteSpace c = false) ∧
  updateDescription now [] t
  = (Return (), mkTodo (id t) (title t) [] (status t) (createdAt t) now) ∧
  (Forall (λ c, isWhiteSpace c = true) newDescription →
     updateDescription now newDescription t
     = (Return (), mkTodo (id t) (title t) [] (status t) (createdAt t) now)).
Proof.
  split; [apply updateDescription_return|].
  split; [apply trim_decompose|].
  split; [apply trim_head|]. split; [apply trim_last|].
  split; [reflexivity|].
  intros H. by rewrite updateDescription_return, (trim_blank _ H).
Qed.

Lemma updateDescription_spec_witness :
  (Forall (λ c, isWhiteSpace c = true) (js "  ") ∧
   updateDescription 5000 (js "  ") buyMilk
   = (Return (), mkTodo (js "t1") (js "Buy milk") [] PENDING 1000 5000)) ∧
  updateDescription 5000 (js " call mum ") buyMilk
  = (Return (),
     mkTodo (js "t1") (js "Buy milk") (js "call mum") PENDING 1000 5000) ∧
  (head (trim (js " call mum ")) = Some 99%N ∧ isWhiteSpace 99%N = false) ∧
  (last (trim (js " call mum ")) = Some 109%N ∧ isWhiteSpace 109%N = false).
Proof.
  assert (H : Forall (λ c, isWhiteSpace c = true) (js "  ")).
  { repeat constructor. }
  pose proof (updateDescription_spec 5000 (js " call mum ") buyMilk)
    as (Hrun & _ & Hhead & Hlast & _).
  split; [split; [exact H|]|split; [exact Hrun|split]].
  - exact (proj2 (proj2 (proj2 (proj2 (proj2
      (updateDescription_spec 5000 (js "  ") buyMilk))))) H).
  - split; [reflexivity | exact (Hhead 99%N eq_refl)].
  - split; [reflexivity | exact (Hlast 109%N eq_refl)].
Defined.

(** ** The timestamps *)

(** Every call either throws and leaves the todo as it was, or returns with
    [updatedAt] set to the clock reading and [id], [createdAt] kept. *)
Lemma call_cases (op : Op) (now : Date) (t : Todo) :
  (∃ e, call op now t = (Throw e, t)) ∨
  (∃ t', call op now t = (Return (), t') ∧
         id t' = id t ∧ createdAt t' = createdAt t ∧ updatedAt t' = now).
Proof.
  destruct op as [| |newTitle|newDescription]; simpl.
  - destruct (canBeCompleted t) eqn:E.
    + right. rewrite (complete_return _ _ E). eauto.
    + left. rewrite (complete_throw _ _ E). eauto.
  - destruct (canBeUncompleted t) eqn:E.
    + right. rewrite (uncomplete_return _ _ E). eauto.
    + left. rewrite (uncomplete_throw _ _ E). eauto.
  - destruct (decide (trim newTitle = [])) as [E|E].
    + left. rewrite (updateTitle_throw _ _ _ E). eauto.
    + right. rewrite (updateTitle_return _ _ _ E). eauto.
  - right. rewrite updateDescription_return. eauto.
Qed.

Lemma call_createdAt (op : Op) (now : Date) (t : Todo) :
  createdAt (call op now t).2 = createdAt t.
Proof.
  destruct (call_cases op now t) as [[e ->]|(t' & -> & _ & Hc & _)]; done.
Qed.

Lemma call_keeps_order (op : Op) (now : Date) (t : Todo) :
  (createdAt t ≤ updatedAt t)%date → (createdAt t ≤ now)%date →
  (createdAt (call op now t).2 ≤ updatedAt (call op now t).2)%date.
Proof.
  intros Ht Hnow.
  destruct (call_cases op now t) as [[e ->]|(t' & -> & _ & Hc & Hu)]; simpl;
    [done | by rewrite Hc, Hu].
Qed.

Lemma calls_keeps_order (cs : list (Op * Date)) (t : Todo) :
  (createdAt t ≤ updatedAt t)%date →
  Forall (λ c, (createdAt t ≤ c.2)%date) cs →
  createdAt (calls cs t) = createdAt t ∧
  (createdAt (calls cs t) ≤ updatedAt (calls cs t))%date.
Proof.
  revert t. induction cs as [|[op now] cs IH]; intros t Ht Hcs; simpl.
  - done.
  - apply Forall_cons in Hcs as [Hnow Hcs]. simpl in Hnow.
    destruct (IH (call op now t).2) as [IH1 IH2].
    + by apply call_keeps_order.
    + by rewrite call_createdAt.
    + split; [|done]. by rewrite IH1, call_createdAt.
Qed.

(** C8, as stated, fails in three ways: a todo can be constructed with
    [updatedAt] before [createdAt]; a successful [complete()] on a todo whose
    [createdAt] lies ahead of the clock puts [updatedAt] before [createdAt];
    and a successful [complete()] at the very clock reading already stored
    leaves the value of [updatedAt] as it was. *)
Lemma updatedAt_invariant_counterexample :
  (reachable backdated ∧ (updatedAt backdated < createdAt backdated)%date) ∧
  ((createdAt farFuture ≤ updatedAt farFuture)%date ∧
   (complete 1793664000000 farFuture).1 = Return () ∧
   (updatedAt (complete 1793664000000 farFuture).2
    < createdAt (complete 1793664000000 farFuture).2)%date) ∧
  ((complete 1000 buyMilk).1 = Return () ∧
   updatedAt (complete 1000 buyMilk).2 = updatedAt buyMilk).
Proof.
  split; [split; [apply reachable_new | reflexivity]|].
  split; [split; [discriminate|split; reflexivity] | split; reflexivity].
Qed.

(** C8, amended. For a todo constructed with [updatedAt ≥ createdAt],
    [updatedAt ≥ createdAt] holds after every sequence of calls of
    [complete], [uncomplete], [updateTitle] and [updateDescription] whose
    clock readings are not before [createdAt], and [createdAt] never
    changes. A call that throws changes no field; a call that returns sets
    [updatedAt] to its clock reading; so the value of [updatedAt] changes
    only in a call that returns. *)
Theorem updatedAt_invariant
    (cs : list (Op * Date)) (op : Op) (now : Date) (t : Todo) :
  ((createdAt t ≤ updatedAt t)%date →
   Forall (λ c, (createdAt t ≤ c.2)%date) cs →
     createdAt (calls cs t) = createdAt t ∧
     (createdAt (calls cs t) ≤ updatedAt (calls cs t))%date) ∧
  (∀ e, (call op now t).1 = Throw e → (call op now t).2 = t) ∧
  ((call op now t).1 = Return () → updatedAt (call op now t).2 = now) ∧
  (updatedAt (call op now t).2 ≠ updatedAt t → (call op now t).1 = Return ()).
Proof.
  split; [apply calls_keeps_order|].
  destruct (call_cases op now t) as [[e ->]|(t' & -> & _ & _ & Hu)]; simpl.
  - split; [done|]. split; done.
  - split; [done|]. split; done.
Qed.

Lemma updatedAt_invariant_witness :
  (createdAt buyMilk ≤ updatedAt buyMilk)%date ∧
  Forall (λ c, (createdAt buyMilk ≤ c.2)%date)
    [(Complete, Time 5000); (Complete, Time 6000); (Uncomplete, Time 7000);
     (UpdateTitle (js " "), Time 8000)] ∧
  calls [(Complete, Time 5000); (Complete, Time 6000); (Uncomplete, Time 7000);
         (UpdateTitle (js " "), Time 8000)] buyMilk
  = mkTodo (js "t1") (js "Buy milk") [] PENDING 1000 7000 ∧
  (createdAt
     (calls [(Complete, Time 5000); (Complete, Time 6000); (Uncomplete, Time 7000);
             (UpdateTitle (js " "), Time 8000)] buyMilk)
   ≤ updatedAt
     (calls [(Complete, Time 5000); (Complete, Time 6000); (Uncomplete, Time 7000);
             (UpdateTitle (js " "), Time 8000)] buyMilk))%date ∧
  ((call Uncomplete 5000 buyMilk).1
   = Throw (mkError (js "Todo is not completed")) ∧
   (call Uncomplete 5000 buyMilk).2 = buyMilk) ∧
  ((call Complete 5000 buyMilk).1 = Return () ∧
   updatedAt (call Complete 5000 buyMilk).2 = 5000).
Proof.
  assert (H1 : (createdAt buyMilk ≤ updatedAt buyMilk)%date)
    by (unfold Date_le; simpl; lia).
  assert (H2 : Forall (λ c, (createdAt buyMilk ≤ c.2)%date)
    [(Complete, Time 5000); (Complete, Time 6000); (Uncomplete, Time 7000);
     (UpdateTitle (js " "), Time 8000)]).
  { repeat constructor; unfold Date_le; simpl; lia. }
  split; [exact H1|]. split; [exact H2|]. split; [reflexivity|]. split.
  - exact (proj2 (proj1 (updatedAt_invariant _ Complete 0 buyMilk) H1 H2)).
  - split; (split; [reflexivity|]).
    + exact (proj1 (proj2 (updatedAt_invariant [] Uncomplete 5000 buyMilk))
               _ eq_refl).
    + exact (proj1 (proj2 (proj2 (updatedAt_invariant [] Complete 5000 buyMilk)))
               eq_refl).
Defined.

(** ** The Map *)

Section JsMap_facts.
Context {V : Type}.
Implicit Types (m : JsMap.t V) (k j : JsString) (v : V).

Lemma JsMap_get_None m k : JsMap.get k m = None ↔ k ∉ JsMap.keys m.
Proof.
  unfold JsMap.keys. induction m as [|[k' v'] m IH]; simpl.
  - split; [intros _; apply not_elem_of_nil | done].
  - rewrite not_elem_of_cons. destruct (decide (k = k')) as [->|Hne].
    + split; [done | intros [? _]; done].
    + rewrite IH. tauto.
Qed.

Lemma JsMap_get_Some m k : is_Some (JsMap.get k m) ↔ k ∈ JsMap.keys m.
Proof.
  rewrite <-not_eq_None_Some, JsMap_get_None.
  destruct (decide (k ∈ JsMap.keys m)); tauto.
Qed.

Lemma JsMap_has_false m k : JsMap.has k m = false ↔ k ∉ JsMap.keys m.
Proof.
  rewrite <-JsMap_get_None. unfold JsMap.has.
  destruct (JsMap.get k m); split; done.
Qed.

Lemma JsMap_has_true m k : JsMap.has k m = true ↔ k ∈ JsMap.keys m.
Proof.
  rewrite <-JsMap_get_Some. unfold JsMap.has.
  destruct (JsMap.get k m); split; done.
Qed.

Lemma JsMap_get_set_eq m k v : JsMap.get k (JsMap.set k v m) = Some v.
Proof.
  induction m as [|[k' v'] m IH]; simpl.
  - by rewrite decide_True.
  - destruct (decide (k = k')) as [->|Hne]; simpl.
    + by rewrite decide_True.
    + by rewrite decide_False.
Qed.

Lemma JsMap_get_set_ne m k j v :
  k ≠ j → JsMap.get j (JsMap.set k v m) = JsMap.get j m.
Proof.
  intros Hkj. induction m as [|[k' v'] m IH]; simpl.
  - by rewrite decide_False.
  - destruct (decide (k = k')) as [->|Hne]; simpl.
    + by rewrite !decide_False.
    + by rewrite IH.
Qed.

Lemma JsMap_keys_delete m k j :
  j ∈ JsMap.keys (JsMap.delete k m) ↔ j ≠ k ∧ j ∈ JsMap.keys m.
Proof.
  unfold JsMap.keys, JsMap.delete. rewrite !list_elem_of_fmap. split.
  - intros ([j' v] & -> & [H1 H2]%list_elem_of_filter). simpl in *.
    split; [done|]. by exists (j', v).
  - intros (Hne & [j' v] & -> & H). exists (j', v). split; [done|].
    by apply list_elem_of_filter.
Qed.

Lemma JsMap_get_delete_eq m k : JsMap.get k (JsMap.delete k m) = None.
Proof. rewrite JsMap_get_None, JsMap_keys_delete. tauto. Qed.

Lemma JsMap_get_delete_ne m k j :
  k ≠ j → JsMap.get j (JsMap.delete k m) = JsMap.get j m.
Proof.
  intros Hkj. unfold JsMap.delete. induction m as [|[k' v'] m IH]; [done|].
  rewrite filter_cons. simpl. destruct (decide (k' ≠ k)) as [Hne|Heq]; simpl.
  - by rewrite IH.
  - apply dec_stable in Heq as ->. by rewrite decide_False.
Qed.

(** Without [k] among the keys, [delete k] finds nothing to remove. *)
Lemma JsMap_delete_absent m k : k ∉ JsMap.keys m → JsMap.delete k m = m.
Proof.
  unfold JsMap.keys, JsMap.delete. induction m as [|[k' v'] m IH]; [done|].
  rewrite fmap_cons, not_elem_of_cons, filter_cons. simpl.
  intros [Hne Hm]. rewrite decide_True by done. by rewrite IH.
Qed.

(** In a well-formed map, [delete k] takes out the one entry of [k] and
    keeps the others in their order. *)
Lemma JsMap_delete_present m k v :
  JsMap.wf m → JsMap.get k m = Some v →
  ∃ m1 m2, m = m1 ++ (k, v) :: m2 ∧ JsMap.delete k m = m1 ++ m2.
Proof.
  unfold JsMap.wf, JsMap.keys.
  induction m as [|[k' v'] m IH]; simpl; [done|].
  rewrite NoDup_cons. intros [Hk' Hm] Hget.
  destruct (decide (k = k')) as [->|Hne].
  - injection Hget as ->. exists [], m. split; [done|].
    unfold JsMap.delete. rewrite filter_cons. simpl.
    rewrite decide_False by (intros H; by apply H).
    by apply JsMap_delete_absent.
  - destruct (IH Hm Hget) as (m1 & m2 & -> & Hd).
    exists ((k', v') :: m1), m2. split; [done|].
    unfold JsMap.delete in *. rewrite filter_cons. simpl.
    rewrite decide_True by done. by rewrite Hd.
Qed.

Lemma JsMap_keys_set m k v :
  JsMap.keys (JsMap.set k v m)
  = if decide (k ∈ JsMap.keys m) then JsMap.keys m else JsMap.keys m ++ [k].
Proof.
  unfold JsMap.keys. induction m as [|[k' v'] m IH].
  - by rewrite decide_False by apply not_elem_of_nil.
  - cbn [JsMap.set]. destruct (decide (k = k')) as [->|Hne].
    + by rewrite decide_True by apply list_elem_of_here.
    + rewrite !fmap_cons, IH. cbn [fst].
      destruct (decide (k ∈ m.*1)) as [Hin|Hnin].
      * by rewrite decide_True by by apply list_elem_of_further.
      * rewrite decide_False; [done|]. by rewrite not_elem_of_cons.
Qed.

Lemma JsMap_wf_empty : JsMap.wf (@JsMap.empty V).
Proof. apply NoDup_nil_2. Qed.

Lemma JsMap_wf_set m k v : JsMap.wf m → JsMap.wf (JsMap.set k v m).
Proof.
  unfold JsMap.wf. rewrite JsMap_keys_set. intros Hm.
  destruct (decide (k ∈ JsMap.keys m)); [done|].
  apply NoDup_app. split; [done|]. split; [|apply NoDup_singleton].
  intros x Hx ->%list_elem_of_singleton. done.
Qed.

Lemma JsMap_wf_delete m k : JsMap.wf m → JsMap.wf (JsMap.delete k m).
Proof.
  unfold JsMap.wf, JsMap.keys, JsMap.delete.
  induction m as [|[k' v'] m IH]; [done|].
  rewrite fmap_cons, NoDup_cons, filter_cons. simpl. intros [Hk' Hm].
  destruct (decide (k' ≠ k)); [|by apply IH].
  rewrite fmap_cons, NoDup_cons. split; [|by apply IH]. simpl.
  intros Hin. apply Hk'.
  by apply (proj1 (JsMap_keys_delete m k k')) in Hin as [_ ?].
Qed.
End JsMap_facts.

(** ** The sort *)

Section sort_facts.
Context {A : Type} (compareFn : A → A → option Z).

Lemma sort_insert_Permutation (x : A) (l : list A) :
  sort_insert compareFn x l ≡ₚ x :: l.
Proof.
  induction l as [|y l IH]; simpl; [done|].
  destruct (default 0 (compareFn x y) <=? 0); [done|].
  rewrite IH. apply Permutation_swap.
Qed.

Lemma sort_Permutation (l : list A) : sort compareFn l ≡ₚ l.
Proof.
  induction l as [|x l IH]; simpl; [done|].
  by rewrite sort_insert_Permutation, IH.
Qed.
End sort_facts.

(** On valid dates the comparator is the difference of the time values. *)
Lemma validCreatedAt_time (t : Todo) :
  validCreatedAt t → ∃ ms, createdAt t = Time ms.
Proof.
  unfold validCreatedAt. destruct (createdAt t) as [ms|]; [eauto|done].
Qed.

Lemma byCreatedAtDesc_time (x y : Todo) (tx ty : Z) :
  createdAt x = Time tx → createdAt y = Time ty →
  InMemoryTodoRepository.byCreatedAtDesc x y = Some (ty - tx).
Proof.
  intros Hx Hy. unfold InMemoryTodoRepository.byCreatedAtDesc.
  by rewrite Hx, Hy.
Qed.

Lemma newerFirst_time (x y : Todo) (tx ty : Z) :
  createdAt x = Time tx → createdAt y = Time ty →
  newerFirst x y ↔ ty ≤ tx.
Proof. intros Hx Hy. unfold newerFirst, Date_le. by rewrite Hx, Hy. Qed.

Lemma sort_insert_newerFirst (x : Todo) (l : list Todo) :
  validCreatedAt x → Forall validCreatedAt l →
  StronglySorted newerFirst l →
  StronglySorted newerFirst (sort_insert InMemoryTodoRepository.byCreatedAtDesc x l).
Proof.
  intros [tx Hx]%validCreatedAt_time Hv Hl. revert Hv.
  induction Hl as [|y l Hl IH Hy]; intros Hv; simpl.
  - repeat constructor.
  - apply Forall_cons in Hv as [[ty Hty]%validCreatedAt_time Hv].
    rewrite (byCreatedAtDesc_time x y tx ty) by done. simpl.
    destruct (ty - tx <=? 0) eqn:E.
    + apply Z.leb_le in E. constructor; [by constructor|].
      constructor; [apply (newerFirst_time x y tx ty); [done|done|lia]|].
      rewrite Forall_forall in Hy, Hv. apply Forall_forall. intros z Hz.
      destruct (validCreatedAt_time z (Hv z Hz)) as [tz Htz].
      pose proof (proj1 (newerFirst_time y z ty tz Hty Htz) (Hy z Hz)).
      apply (newerFirst_time x z tx tz); [done|done|lia].
    + apply Z.leb_gt in E. constructor; [by apply IH|].
      rewrite sort_insert_Permutation. constructor; [|done].
      apply (newerFirst_time y x ty tx); [done|done|lia].
Qed.

Lemma sort_newerFirst (l : list Todo) :
  Forall validCreatedAt l →
  StronglySorted newerFirst (sort InMemoryTodoRepository.byCreatedAtDesc l).
Proof.
  induction 1 as [|x l Hx Hl IH]; simpl; [constructor|].
  apply sort_insert_newerFirst; [done| |done].
  by rewrite sort_Permutation.
Qed.

Lemma StronglySorted_lookup_lt {A} (R : relation A) (l : list A) (i j : nat) (a b : A) :
  StronglySorted R l → l !! i = Some a → l !! j = Some b → (i < j)%nat → R a b.
Proof.
  intros Hl. revert i j. induction Hl as [|x l Hl IH Hx]; intros i j Hi Hj Hij.
  - done.
  - destruct j as [|j]; [lia|]. destruct i as [|i]; simpl in *.
    + injection Hi as ->. rewrite Forall_forall in Hx. apply Hx.
      by eapply list_elem_of_lookup_2.
    + apply (IH i j); [done|done|lia].
Qed.

Lemma Date_lt_irrefl (d : Date) : ¬ (d < d)%date.
Proof. unfold Date_lt. destruct (getTime d); [lia|tauto]. Qed.

Lemma Date_lt_not_le (a b : Date) : (a < b)%date → ¬ (b ≤ a)%date.
Proof.
  unfold Date_lt, Date_le. destruct (getTime a), (getTime b); try tauto. lia.
Qed.

Lemma newerFirst_before (l : list Todo) (i j : nat) (a b : Todo) :
  StronglySorted newerFirst l →
  l !! i = Some a → l !! j = Some b → (createdAt a < createdAt b)%date →
  (j < i)%nat.
Proof.
  intros Hl Hi Hj Hab.
  destruct (Nat.lt_trichotomy i j) as [Hlt|[Heq|Hgt]]; [| |done].
  2: { subst j. rewrite Hi in Hj. injection Hj as ->.
       by apply Date_lt_irrefl in Hab. }
  pose proof (StronglySorted_lookup_lt _ _ _ _ _ _ Hl Hi Hj Hlt) as H.
  by apply Date_lt_not_le in Hab.
Qed.

(** ** The repository *)

Import InMemoryTodoRepository.

(** Every store the repository can reach from the empty [Map] is
    well-formed. *)
Lemma repository_wf (todo : Todo) (k : JsString) (todos : JsMap.t Todo) :
  JsMap.wf todos →
  JsMap.wf (create todo todos).2 ∧ JsMap.wf (update todo todos).2 ∧
  JsMap.wf (delete k todos).2 ∧ JsMap.wf (findAll todos).2 ∧
  JsMap.wf (findById k todos).2.
Proof.
  intros Hwf. split; [by apply JsMap_wf_set|]. split; [|split; [|done]].
  - unfold update. run_method.
    destruct (JsMap.has (id todo) todos); simpl; [by apply JsMap_wf_set|done].
  - unfold delete. run_method.
    destruct (JsMap.has k todos); simpl; [by apply JsMap_wf_delete|done].
Qed.

(** C3. Round trip: in every state of the repository, [create(t)] followed
    by [findById(t.id)] gives back [t], equal in all six fields; [create]
    itself returns [t]. *)
Theorem create_findById (todo : Todo) (todos : JsMap.t Todo) :
  create todo todos = (Return todo, JsMap.set (id todo) todo todos) ∧
  (create todo;; findById (id todo)) todos
  = (Return (Some todo), JsMap.set (id todo) todo todos).
Proof.
  split; [reflexivity|].
  unfold create, findById. run_method. by rewrite JsMap_get_set_eq.
Qed.

Lemma update_throw (todo : Todo) (todos : JsMap.t Todo) :
  id todo ∉ JsMap.keys todos →
  update todo todos = (Throw (notFound (id todo)), todos).
Proof.
  intros H%JsMap_has_false. unfold update. run_method. by rewrite H.
Qed.

Lemma update_return (todo : Todo) (todos : JsMap.t Todo) :
  id todo ∈ JsMap.keys todos →
  update todo todos = (Return todo, JsMap.set (id todo) todo todos).
Proof.
  intros H%JsMap_has_true. unfold update. run_method. by rewrite H.
Qed.

Lemma delete_throw (k : JsString) (todos : JsMap.t Todo) :
  k ∉ JsMap.keys todos → delete k todos = (Throw (notFound k), todos).
Proof.
  intros H%JsMap_has_false. unfold delete. run_method. by rewrite H.
Qed.

Lemma delete_return (k : JsString) (todos : JsMap.t Todo) :
  k ∈ JsMap.keys todos → delete k todos = (Return (), JsMap.delete k todos).
Proof.
  intros H%JsMap_has_true. unfold delete. run_method. by rewrite H.
Qed.

(** C4. For an id that is not a key of the store, [update] and [delete]
    throw [Error(`Todo with id ${id} not found`)], the NotFoundError of the
    specification, and leave the store exactly as it was. For an id that is
    a key, [update] puts the supplied todo in the place of the stored one
    and returns it, and [delete] removes the entry. *)
Theorem update_delete_spec (todo : Todo) (k : JsString) (todos : JsMap.t Todo) :
  (id todo ∉ JsMap.keys todos →
     update todo todos = (Throw (notFound (id todo)), todos)) ∧
  (k ∉ JsMap.keys todos →
     delete k todos = (Throw (notFound k), todos)) ∧
  (id todo ∈ JsMap.keys todos →
     update todo todos = (Return todo, JsMap.set (id todo) todo todos) ∧
     JsMap.get (id todo) (update todo todos).2 = Some todo ∧
     JsMap.keys (update todo todos).2 = JsMap.keys todos) ∧
  (k ∈ JsMap.keys todos →
     delete k todos = (Return (), JsMap.delete k todos) ∧
     JsMap.get k (delete k todos).2 = None ∧
     k ∉ JsMap.keys (delete k todos).2).
Proof.
  split; [apply update_throw|]. split; [apply delete_throw|]. split.
  - intros H. rewrite (update_return _ _ H). simpl.
    split; [done|]. split; [apply JsMap_get_set_eq|].
    by rewrite JsMap_keys_set, decide_True.
  - intros H. rewrite (delete_return _ _ H). simpl.
    split; [done|]. split; [apply JsMap_get_delete_eq|].
    rewrite JsMap_keys_delete. tauto.
Qed.

Lemma update_delete_spec_witness :
  ((id payRent ∉ JsMap.keys twoTodos) ∧
   update payRent twoTodos = (Throw (notFound (js "t2")), twoTodos)) ∧
  ((js "missing" ∉ JsMap.keys twoTodos) ∧
   delete (js "missing") twoTodos = (Throw (notFound (js "missing")), twoTodos)) ∧
  (id (set_status COMPLETED older) ∈ JsMap.keys twoTodos ∧
   update (set_status COMPLETED older) twoTodos
   = (Return (set_status COMPLETED older),
      [(js "a", set_status COMPLETED older); (js "b", newer)])) ∧
  (js "a" ∈ JsMap.keys twoTodos ∧
   delete (js "a") twoTodos = (Return (), [(js "b", newer)])).
Proof.
  assert (H1 : id payRent ∉ JsMap.keys twoTodos).
  { intros H. repeat (apply elem_of_cons in H as [H|H]; [discriminate H|]).
    by apply not_elem_of_nil in H. }
  assert (H2 : js "missing" ∉ JsMap.keys twoTodos).
  { intros H. repeat (apply elem_of_cons in H as [H|H]; [discriminate H|]).
    by apply not_elem_of_nil in H. }
  assert (H3 : id (set_status COMPLETED older) ∈ JsMap.keys twoTodos).
  { apply list_elem_of_here. }
  assert (H4 : js "a" ∈ JsMap.keys twoTodos).
  { apply list_elem_of_here. }
  split; [split; [exact H1|]|split; [split; [exact H2|]|split; split]].
  - exact (proj1 (update_delete_spec payRent [] twoTodos) H1).
  - exact (proj1 (proj2 (update_delete_spec payRent (js "missing") twoTodos)) H2).
  - exact H3.
  - exact (proj1 (proj1 (proj2 (proj2
      (update_delete_spec (set_status COMPLETED older) [] twoTodos))) H3)).
  - exact H4.
  - exact (proj1 (proj2 (proj2 (proj2
      (update_delete_spec payRent (js "a") twoTodos))) H4)).
Defined.

(** C5, as stated, fails: the constructor takes the Invalid Date, whose
    time value is [NaN]; the comparator then gives [NaN] for every pair with
    that todo, and [findAll()] returns the three todos of [undatedStore] as
    the Map holds them, the older one before the newer one. *)
Lemma findAll_counterexample :
  findAll undatedStore = (Return [older; undated; newer], undatedStore) ∧
  (createdAt older < createdAt newer)%date ∧
  ¬ StronglySorted newerFirst [older; undated; newer].
Proof.
  split; [reflexivity|]. split; [reflexivity|].
  intros H. apply StronglySorted_inv in H as [_ H].
  apply Forall_cons in H as [H _]. exact H.
Qed.

(** C5, amended. In every state of the repository [findAll()] returns,
    leaves the store as it was, and its result holds every stored entry
    exactly once (it is a permutation of the stored values). When the
    [createdAt] of every stored todo is a valid date, the result is in
    descending [createdAt] order: of two stored todos the one created later,
    for instance one second later, stands before the other. *)
Theorem findAll_spec (todos : JsMap.t Todo) :
  ∃ l, findAll todos = (Return l, todos) ∧
       l ≡ₚ JsMap.values todos ∧
       (Forall validCreatedAt (JsMap.values todos) →
          StronglySorted newerFirst l ∧
          (∀ i j a b T0, l !! i = Some a → l !! j = Some b →
                         createdAt a = Time T0 →
                         createdAt b = Time (T0 + 1000) → (j < i)%nat) ∧
          (∀ i j a b, l !! i = Some a → l !! j = Some b →
                      (createdAt a < createdAt b)%date → (j < i)%nat)).
Proof.
  exists (sort byCreatedAtDesc (JsMap.values todos)).
  split; [reflexivity|]. split; [apply sort_Permutation|].
  intros Hv. pose proof (sort_newerFirst _ Hv) as Hs.
  split; [done|]. split.
  - intros i j a b T0 Hi Hj Ha Hb.
    apply (newerFirst_before _ i j a b Hs Hi Hj).
    unfold Date_lt. rewrite Ha, Hb. simpl. lia.
  - intros i j a b. by apply newerFirst_before.
Qed.

Lemma findAll_spec_witness :
  Forall validCreatedAt (JsMap.values twoTodos) ∧
  findAll twoTodos = (Return [newer; older], twoTodos) ∧
  [newer; older] !! 1%nat = Some older ∧
  [newer; older] !! 0%nat = Some newer ∧
  createdAt older = Time 1000 ∧ createdAt newer = Time (1000 + 1000) ∧
  (0 < 1)%nat.
Proof.
  assert (Hv : Forall validCreatedAt (JsMap.values twoTodos)).
  { repeat constructor; discriminate. }
  split; [exact Hv|]. split; [reflexivity|]. do 4 (split; [reflexivity|]).
  destruct (findAll_spec twoTodos) as (l & Hl & _ & H).
  destruct (H Hv) as (_ & H1 & _).
  change (findAll twoTodos) with (Return [newer; older], twoTodos) in Hl.
  injection Hl as <-.
  exact (H1 1%nat 0%nat older newer 1000 eq_refl eq_refl eq_refl eq_refl).
Defined.

(** C9. Frame: [create(todo)], [update(todo)] and [delete(id)], whether they
    return or throw, leave the entry of every other id [j] as it was.
    [create] and [update] keep every key of the store, [create] adding at
    most [todo.id]; in a store where [id] is a key, [delete] takes out the
    one entry of [id] and keeps all others, in their order. *)
Theorem repository_frame
    (todo : Todo) (k j : JsString) (todos : JsMap.t Todo) :
  (id todo ≠ j → JsMap.get j (create todo todos).2 = JsMap.get j todos) ∧
  (id todo ≠ j → JsMap.get j (update todo todos).2 = JsMap.get j todos) ∧
  (k ≠ j → JsMap.get j (delete k todos).2 = JsMap.get j todos) ∧
  (JsMap.keys (create todo todos).2
   = if decide (id todo ∈ JsMap.keys todos)
     then JsMap.keys todos else JsMap.keys todos ++ [id todo]) ∧
  JsMap.keys (update todo todos).2 = JsMap.keys todos ∧
  (JsMap.wf todos → ∀ v, JsMap.get k todos = Some v →
     ∃ m1 m2, todos = m1 ++ (k, v) :: m2 ∧ (delete k todos).2 = m1 ++ m2).
Proof.
  split; [intros H; by apply JsMap_get_set_ne|]. split.
  { intros H. destruct (decide (id todo ∈ JsMap.keys todos)) as [Hin|Hnin].
    - rewrite (update_return _ _ Hin). by apply JsMap_get_set_ne.
    - by rewrite (update_throw _ _ Hnin). }
  split.
  { intros H. destruct (decide (k ∈ JsMap.keys todos)) as [Hin|Hnin].
    - rewrite (delete_return _ _ Hin). by apply JsMap_get_delete_ne.
    - by rewrite (delete_throw _ _ Hnin). }
  split; [apply JsMap_keys_set|]. split.
  { destruct (decide (id todo ∈ JsMap.keys todos)) as [Hin|Hnin].
    - rewrite (update_return _ _ Hin). simpl.
      by rewrite JsMap_keys_set, decide_True.
    - by rewrite (update_throw _ _ Hnin). }
  intros Hwf v Hv.
  assert (Hin : k ∈ JsMap.keys todos) by (apply JsMap_get_Some; eauto).
  rewrite (delete_return _ _ Hin). by apply JsMap_delete_present.
Qed.

Lemma repository_frame_witness :
  (id payRent ≠ js "a" ∧
   JsMap.get (js "a") (create payRent twoTodos).2 = JsMap.get (js "a") twoTodos) ∧
  (id (set_status COMPLETED newer) ≠ js "a" ∧
   JsMap.get (js "a") (update (set_status COMPLETED newer) twoTodos).2
   = JsMap.get (js "a") twoTodos) ∧
  (js "b" ≠ js "a" ∧
   JsMap.get (js "a") (delete (js "b") twoTodos).2 = JsMap.get (js "a") twoTodos) ∧
  (JsMap.wf twoTodos ∧ JsMap.get (js "a") twoTodos = Some older ∧
   ∃ m1 m2, twoTodos = m1 ++ (js "a", older) :: m2 ∧
            (delete (js "a") twoTodos).2 = m1 ++ m2).
Proof.
  assert (Hwf : JsMap.wf twoTodos).
  { apply NoDup_cons. split.
    - intros H. apply elem_of_cons in H as [H|H]; [discriminate H|].
      by apply not_elem_of_nil in H.
    - apply NoDup_singleton. }
  split; [split; [discriminate|]|split; [split; [discriminate|]|
    split; [split; [discriminate|]|split; [exact Hwf|split; [reflexivity|]]]]].
  - apply (proj1 (repository_frame payRent [] (js "a") twoTodos)). discriminate.
  - apply (proj1 (proj2
      (repository_frame (set_status COMPLETED newer) [] (js "a") twoTodos))).
    discriminate.
  - apply (proj1 (proj2 (proj2
      (repository_frame payRent (js "b") (js "a") twoTodos)))). discriminate.
  - exact (proj2 (proj2 (proj2 (proj2 (proj2
      (repository_frame payRent (js "a") (js "a") twoTodos))))) Hwf older eq_refl).
Defined.

(** ** The invokers *)

Section Invoker_facts.
Variable kind : JsString.
Implicit Types (name : JsString) (x : JsValue) (m : gmap JsString JsValue).

(** [invoke] returns the value stored under [name] when it is truthy, and
    throws otherwise; it never writes to the registry. *)
Lemma invoke_cases name m :
  Invoker.invoke kind name m
  = match m !! name with
    | Some x =>
        if toBoolean x then (Return x, m)
        else (Throw (Invoker.notFound kind name), m)
    | None => (Throw (Invoker.notFound kind name), m)
    end.
Proof.
  unfold Invoker.invoke. run_method.
  destruct (m !! name) as [x|]; simpl; [|done]. by destruct (toBoolean x).
Qed.

Lemma invoke_unregistered name m :
  m !! name = None →
  Invoker.invoke kind name m = (Throw (Invoker.notFound kind name), m).
Proof. intros H. by rewrite invoke_cases, H. Qed.

Lemma invoke_throw_iff name m :
  (∃ e, (Invoker.invoke kind name m).1 = Throw e)
  ↔ m !! name = None ∨ ∃ x, m !! name = Some x ∧ toBoolean x = false.
Proof.
  rewrite invoke_cases. destruct (m !! name) as [x|] eqn:E.
  - destruct (toBoolean x) eqn:T; simpl.
    + split; [by intros [e ?]|]. intros [?|(y & [= <-] & ?)]; congruence.
    + split; [|by eauto]. intros _. right. by exists x.
  - split; [by left | by eauto].
Qed.

(** The round trip holds for the truthy values, which include every
    object: the last value registered under [name] is the one returned. *)
Lemma register_invoke_truthy name x m :
  toBoolean x = true →
  (Invoker.register name x;; Invoker.invoke kind name) m
  = (Return x, <[name:=x]> m).
Proof.
  intros T.
  change ((Invoker.register name x;; Invoker.invoke kind name) m)
    with (Invoker.invoke kind name (<[name:=x]> m)).
  by rewrite invoke_cases, lookup_insert_eq, T.
Qed.

Lemma register_register_invoke name x y m :
  toBoolean y = true →
  (Invoker.register name x;; Invoker.register name y;;
   Invoker.invoke kind name) m
  = (Return y, <[name:=y]> m).
Proof.
  intros T.
  change ((Invoker.register name x;; Invoker.register name y;;
           Invoker.invoke kind name) m)
    with (Invoker.invoke kind name (<[name:=y]> (<[name:=x]> m))).
  by rewrite invoke_cases, lookup_insert_eq, T, insert_insert_eq.
Qed.

Lemma register_invoke_falsy name x m :
  toBoolean x = false →
  (Invoker.register name x;; Invoker.has name) m
  = (Return true, <[name:=x]> m) ∧
  (Invoker.register name x;; Invoker.invoke kind name) m
  = (Throw (Invoker.notFound kind name), <[name:=x]> m).
Proof.
  intros T. split.
  - change ((Invoker.register name x;; Invoker.has name) m)
      with (Invoker.has name (<[name:=x]> m)).
    unfold Invoker.has. run_method.
    by rewrite lookup_insert_eq, bool_decide_eq_true_2.
  - change ((Invoker.register name x;; Invoker.invoke kind name) m)
      with (Invoker.invoke kind name (<[name:=x]> m)).
    by rewrite invoke_cases, lookup_insert_eq, T.
Qed.
End Invoker_facts.

(** C10, the code at a registered falsy value. After
    [register('retryCount', 0)] the name is registered, [has('retryCount')]
    says so, and still [invoke('retryCount')] throws
    [Error("Service 'retryCount' not found. Did you register it?")]: the test
    [!service] takes the registered [0] for a missing entry. The three
    invokers behave alike. *)
Theorem invoke_registered_falsy_throws :
  (ServiceInvoker.register (js "retryCount") (JsNumber 0);;
   ServiceInvoker.has (js "retryCount")) ∅
  = (Return true, {[ js "retryCount" := JsNumber 0 ]}) ∧
  (ServiceInvoker.register (js "retryCount") (JsNumber 0);;
   ServiceInvoker.invoke (js "retryCount")) ∅
  = (Throw (mkError (js "Service 'retryCount' not found. Did you register it?")),
     {[ js "retryCount" := JsNumber 0 ]}) ∧
  (RepositoryInvoker.register (js "retryCount") (JsNumber 0);;
   RepositoryInvoker.invoke (js "retryCount")) ∅
  = (Throw (mkError (js "Repository 'retryCount' not found. Did you register it?")),
     {[ js "retryCount" := JsNumber 0 ]}) ∧
  (LogicInvoker.register (js "retryCount") (JsNumber 0);;
   LogicInvoker.invoke (js "retryCount")) ∅
  = (Throw (mkError (js "Logic 'retryCount' not found. Did you register it?")),
     {[ js "retryCount" := JsNumber 0 ]}).
Proof. repeat split; reflexivity. Qed.

(** * Beyond the claims *)

(** ** More on the Map *)

Section JsMap_more.
Context {V : Type}.
Implicit Types (m : JsMap.t V) (k j : JsString) (v : V).

Lemma JsMap_set_same m k v : JsMap.get k m = Some v → JsMap.set k v m = m.
Proof.
  induction m as [|[k' v'] m IH]; simpl; [done|].
  destruct (decide (k = k')) as [->|Hne].
  - by intros [= ->].
  - intros H. by rewrite IH.
Qed.

Lemma JsMap_set_set m k v w :
  JsMap.set k w (JsMap.set k v m) = JsMap.set k w m.
Proof.
  induction m as [|[k' v'] m IH]; simpl.
  - by rewrite decide_True.
  - destruct (decide (k = k')) as [->|Hne]; simpl.
    + by rewrite decide_True.
    + by rewrite decide_False, IH.
Qed.

Lemma JsMap_set_absent m k v : k ∉ JsMap.keys m → JsMap.set k v m = m ++ [(k, v)].
Proof.
  unfold JsMap.keys. induction m as [|[k' v'] m IH]; simpl; [done|].
  rewrite not_elem_of_cons. intros [Hne Hm].
  by rewrite decide_False, IH.
Qed.

Lemma JsMap_delete_set_absent m k v :
  k ∉ JsMap.keys m → JsMap.delete k (JsMap.set k v m) = m.
Proof.
  intros Hk. rewrite (JsMap_set_absent _ _ _ Hk). unfold JsMap.delete.
  rewrite filter_app, filter_cons, filter_nil. simpl.
  rewrite decide_False by (intros H; by apply H).
  rewrite app_nil_r. by apply JsMap_delete_absent.
Qed.

Lemma JsMap_set_entries m k v e :
  e ∈ JsMap.set k v m → e = (k, v) ∨ e ∈ m.
Proof.
  induction m as [|[k' v'] m IH]; simpl.
  - intros ->%list_elem_of_singleton. by left.
  - destruct (decide (k = k')) as [->|Hne].
    + intros [->|H]%elem_of_cons; [by left|]. right. by apply list_elem_of_further.
    + intros [->|H]%elem_of_cons; [right; apply list_elem_of_here|].
      destruct (IH H) as [->|?]; [by left|]. right. by apply list_elem_of_further.
Qed.

Lemma JsMap_set_Forall (P : JsString * V → Prop) m k v :
  Forall P m → P (k, v) → Forall P (JsMap.set k v m).
Proof.
  rewrite !Forall_forall. intros Hm Hkv e [->|He]%JsMap_set_entries; auto.
Qed.

Lemma JsMap_delete_Forall (P : JsString * V → Prop) m k :
  Forall P m → Forall P (JsMap.delete k m).
Proof.
  rewrite !Forall_forall. intros Hm e [_ He]%list_elem_of_filter. auto.
Qed.

(** An entry read with [get] is an entry of the list. *)
Lemma JsMap_get_entry m k v : JsMap.get k m = Some v → (k, v) ∈ m.
Proof.
  induction m as [|[k' v'] m IH]; simpl; [done|].
  destruct (decide (k = k')) as [->|Hne].
  - intros [= ->]. apply list_elem_of_here.
  - intros H. by apply list_elem_of_further, IH.
Qed.
End JsMap_more.

(** ** More on the entity *)

(** X1. [complete()] and [uncomplete()] undo each other up to [updatedAt]: on
    a todo that can be completed, [complete()] then [uncomplete()] both
    return and give back the todo with only [updatedAt] moved to the second
    clock reading; the same holds for [uncomplete()] then [complete()] on a
    completed todo whose title is not blank. A completed todo with a blank
    title can be uncompleted, but not completed again. *)
Theorem complete_uncomplete (now1 now2 : Date) (t : Todo) :
  (canBeCompleted t = true →
     (complete now1;; uncomplete now2) t = (Return (), set_updatedAt now2 t)) ∧
  (status t = COMPLETED → trim (title t) ≠ [] →
     (uncomplete now1;; complete now2) t = (Return (), set_updatedAt now2 t)) ∧
  (status t = COMPLETED → trim (title t) = [] →
     (uncomplete now1;; complete now2) t
     = (Throw (mkError (js "Todo cannot be completed")),
        set_updatedAt now1 (set_status PENDING t))).
Proof.
  split; [|split].
  - intros H. pose proof (proj1 (canBeCompleted_true t) H) as [Hs _].
    change ((complete now1;; uncomplete now2) t)
      with (match complete now1 t with
            | (Return _, t') => uncomplete now2 t'
            | (Throw e, t') => (Throw e, t')
            end).
    rewrite (complete_return _ _ H), uncomplete_return by done.
    unfold set_updatedAt. simpl. by rewrite Hs.
  - intros Hs Ht.
    change ((uncomplete now1;; complete now2) t)
      with (match uncomplete now1 t with
            | (Return _, t') => complete now2 t'
            | (Throw e, t') => (Throw e, t')
            end).
    rewrite uncomplete_return by by apply canBeUncompleted_true.
    rewrite complete_return by by apply canBeCompleted_true.
    unfold set_updatedAt. simpl. by rewrite Hs.
  - intros Hs Ht.
    change ((uncomplete now1;; complete now2) t)
      with (match uncomplete now1 t with
            | (Return _, t') => complete now2 t'
            | (Throw e, t') => (Throw e, t')
            end).
    rewrite uncomplete_return by by apply canBeUncompleted_true.
    rewrite complete_throw; [done|]. apply canBeCompleted_false. by right.
Qed.

Lemma complete_uncomplete_witness :
  (canBeCompleted buyMilk = true ∧
   (complete 5000;; uncomplete 6000) buyMilk
   = (Return (), mkTodo (js "t1") (js "Buy milk") [] PENDING 1000 6000)) ∧
  (status payRent = COMPLETED ∧ trim (title payRent) ≠ [] ∧
   (uncomplete 5000;; complete 6000) payRent
   = (Return (), mkTodo (js "t2") (js "Pay rent") [] COMPLETED 1000 6000)) ∧
  (status blankDone = COMPLETED ∧ trim (title blankDone) = [] ∧
   (uncomplete 5000;; complete 6000) blankDone
   = (Throw (mkError (js "Todo cannot be completed")),
      mkTodo (js "t6") (js "   ") [] PENDING 1000 5000)).
Proof.
  split; [|split].
  - split; [reflexivity|].
    apply (proj1 (complete_uncomplete 5000 6000 buyMilk)). reflexivity.
  - split; [reflexivity|]. split; [discriminate|].
    apply (proj1 (proj2 (complete_uncomplete 5000 6000 payRent)));
      [reflexivity|discriminate].
  - split; [reflexivity|]. split; [reflexivity|].
    apply (proj2 (proj2 (complete_uncomplete 5000 6000 blankDone)));
      reflexivity.
Defined.

(** X2. A todo whose title is not blank accepts exactly one of
    [complete()] and [uncomplete()] at any time: the one returns, the other
    throws. *)
Theorem exactly_one_transition (now : Date) (t : Todo) :
  trim (title t) ≠ [] →
  ((complete now t).1 = Return () ∧ ∃ e, (uncomplete now t).1 = Throw e) ∨
  ((uncomplete now t).1 = Return () ∧ ∃ e, (complete now t).1 = Throw e).
Proof.
  intros Ht. destruct (status t) eqn:Hs.
  - left. rewrite complete_return by by apply canBeCompleted_true.
    rewrite uncomplete_throw; [eauto|].
    apply canBeUncompleted_false. by rewrite Hs.
  - right. rewrite uncomplete_return by by apply canBeUncompleted_true.
    rewrite complete_throw; [eauto|].
    apply canBeCompleted_false. left. by rewrite Hs.
Qed.

Lemma exactly_one_transition_witness :
  trim (title buyMilk) ≠ [] ∧
  (((complete 5000 buyMilk).1 = Return () ∧
    ∃ e, (uncomplete 5000 buyMilk).1 = Throw e) ∨
   ((uncomplete 5000 buyMilk).1 = Return () ∧
    ∃ e, (complete 5000 buyMilk).1 = Throw e)).
Proof.
  split; [discriminate|]. apply exactly_one_transition. discriminate.
Defined.

Lemma call_fields (op : Op) (now : Date) (t : Todo) :
  id (call op now t).2 = id t ∧
  createdAt (call op now t).2 = createdAt t ∧
  ((∀ s, op ≠ UpdateTitle s) → title (call op now t).2 = title t) ∧
  ((∀ s, op ≠ UpdateDescription s) →
     description (call op now t).2 = description t) ∧
  (op ≠ Complete → op ≠ Uncomplete → status (call op now t).2 = status t).
Proof.
  destruct op as [| |newTitle|newDescription]; simpl.
  - destruct (canBeCompleted t) eqn:E;
      [rewrite (complete_return _ _ E) | rewrite (complete_throw _ _ E)];
      simpl; repeat split; done.
  - destruct (canBeUncompleted t) eqn:E;
      [rewrite (uncomplete_return _ _ E) | rewrite (uncomplete_throw _ _ E)];
      simpl; repeat split; done.
  - destruct (decide (trim newTitle = [])) as [E|E];
      [rewrite (updateTitle_throw _ _ _ E) | rewrite (updateTitle_return _ _ _ E)];
      simpl; repeat split; try done.
    intros H. by destruct (H newTitle).
  - repeat split; try done. intros H. by destruct (H newDescription).
Qed.

(** X3. What the entity's methods never touch, over any sequence of calls:
    [id] and [createdAt] always stay; the title stays unless [updateTitle]
    is called, the description unless [updateDescription] is called, the
    status unless [complete] or [uncomplete] is called. *)
Theorem calls_frame (cs : list (Op * Date)) (t : Todo) :
  id (calls cs t) = id t ∧
  createdAt (calls cs t) = createdAt t ∧
  (Forall (λ c, ∀ s, c.1 ≠ UpdateTitle s) cs →
     title (calls cs t) = title t) ∧
  (Forall (λ c, ∀ s, c.1 ≠ UpdateDescription s) cs →
     description (calls cs t) = description t) ∧
  (Forall (λ c, c.1 ≠ Complete ∧ c.1 ≠ Uncomplete) cs →
     status (calls cs t) = status t).
Proof.
  revert t. induction cs as [|[op now] cs IH]; intros t; simpl.
  - repeat split; done.
  - destruct (IH (call op now t).2) as (I1 & I2 & I3 & I4 & I5).
    destruct (call_fields op now t) as (F1 & F2 & F3 & F4 & F5).
    split; [by rewrite I1|]. split; [by rewrite I2|].
    split; [|split].
    + intros [H Hcs]%Forall_cons. simpl in H. by rewrite I3, F3.
    + intros [H Hcs]%Forall_cons. simpl in H. by rewrite I4, F4.
    + intros [[H1 H2] Hcs]%Forall_cons. simpl in *. by rewrite I5, F5.
Qed.

Lemma calls_frame_witness :
  Forall (λ c : Op * Date, ∀ s, c.1 ≠ UpdateTitle s)
    [(Complete, Time 5000); (UpdateDescription (js " today "), Time 6000)] ∧
  calls [(Complete, Time 5000); (UpdateDescription (js " today "), Time 6000)] buyMilk
  = mkTodo (js "t1") (js "Buy milk") (js "today") COMPLETED 1000 6000 ∧
  title (calls [(Complete, Time 5000); (UpdateDescription (js " today "), Time 6000)]
           buyMilk)
  = title buyMilk.
Proof.
  assert (H : Forall (λ c : Op * Date, ∀ s, c.1 ≠ UpdateTitle s)
    [(Complete, Time 5000); (UpdateDescription (js " today "), Time 6000)]).
  { repeat constructor; simpl; discriminate. }
  split; [exact H|]. split; [reflexivity|].
  exact (proj1 (proj2 (proj2 (calls_frame _ buyMilk))) H).
Defined.

Lemma call_titled (op : Op) (now : Date) (t : Todo) :
  trim (title t) ≠ [] → trim (title (call op now t).2) ≠ [].
Proof.
  intros Ht. destruct op as [| |newTitle|newDescription].
  1,2,4: by rewrite (proj1 (proj2 (proj2 (call_fields _ now t)))).
  simpl. destruct (decide (trim newTitle = [])) as [E|E].
  - by rewrite (updateTitle_throw _ _ _ E).
  - rewrite (updateTitle_return _ _ _ E). simpl. by rewrite trim_trim.
Qed.

(** X4. The title stays usable. After an [updateTitle] that returns, the
    stored title is the trimmed argument, is not empty, and has no white
    space left at either end (trimming it again changes nothing). A todo
    whose title is not blank keeps a title that is not blank through every
    sequence of calls. *)
Theorem title_never_blank
    (now : Date) (newTitle : JsString) (cs : list (Op * Date)) (t : Todo) :
  ((updateTitle now newTitle t).1 = Return () →
     title (updateTitle now newTitle t).2 = trim newTitle ∧
     title (updateTitle now newTitle t).2 ≠ [] ∧
     trim (title (updateTitle now newTitle t).2)
     = title (updateTitle now newTitle t).2) ∧
  (trim (title t) ≠ [] → trim (title (calls cs t)) ≠ []).
Proof.
  split.
  - destruct (decide (trim newTitle = [])) as [E|E].
    + by rewrite (updateTitle_throw _ _ _ E).
    + rewrite (updateTitle_return _ _ _ E). simpl. intros _.
      split; [done|]. split; [done|]. apply trim_trim.
  - revert t. induction cs as [|[op now'] cs IH]; intros t Ht; simpl; [done|].
    by apply IH, call_titled.
Qed.

Lemma title_never_blank_witness :
  ((updateTitle 5000 (js "  Buy bread ") buyMilk).1 = Return () ∧
   title (updateTitle 5000 (js "  Buy bread ") buyMilk).2 = js "Buy bread") ∧
  (trim (title buyMilk) ≠ [] ∧
   trim (title (calls [(UpdateTitle (js "  "), Time 5000);
                       (UpdateTitle (js " x "), Time 6000)] buyMilk)) ≠ []).
Proof.
  split.
  - split; [reflexivity|].
    apply (proj1 (title_never_blank 5000 (js "  Buy bread ") [] buyMilk)).
    reflexivity.
  - split; [discriminate|].
    apply (proj2 (title_never_blank 0 [] _ buyMilk)). discriminate.
Defined.

(** ** More on the repository *)

Lemma create_run (todo : Todo) (todos : JsMap.t Todo) :
  create todo todos = (Return todo, JsMap.set (id todo) todo todos).
Proof. reflexivity. Qed.

Lemma findById_run (k : JsString) (todos : JsMap.t Todo) :
  findById k todos = (Return (JsMap.get k todos), todos).
Proof. unfold findById. run_method. by destruct (JsMap.get k todos). Qed.

Lemma keyed_get (todos : JsMap.t Todo) (k : JsString) (t : Todo) :
  keyed todos → JsMap.get k todos = Some t → id t = k.
Proof.
  unfold keyed. rewrite Forall_forall.
  intros Hk Hget%JsMap_get_entry. exact (Hk _ Hget).
Qed.

Lemma delete_invariants (k : JsString) (todos : JsMap.t Todo) :
  JsMap.wf todos → keyed todos →
  JsMap.wf (delete k todos).2 ∧ keyed (delete k todos).2.
Proof.
  intros Hwf Hk. destruct (decide (k ∈ JsMap.keys todos)) as [Hin|Hnin].
  - rewrite (delete_return _ _ Hin). simpl.
    split; [by apply JsMap_wf_delete | by apply JsMap_delete_Forall].
  - by rewrite (delete_throw _ _ Hnin).
Qed.

(** X5. Every entry sits under its todo's id, and stays so: [create],
    [update] and [delete] keep a store keyed by id (and free of double
    keys), whether they return or throw; in such a store the todo that
    [findById(k)] gives has the id [k]. *)
Theorem repository_keyed (todo : Todo) (k : JsString) (todos : JsMap.t Todo) :
  JsMap.wf todos → keyed todos →
  (JsMap.wf (create todo todos).2 ∧ keyed (create todo todos).2) ∧
  (JsMap.wf (update todo todos).2 ∧ keyed (update todo todos).2) ∧
  (JsMap.wf (delete k todos).2 ∧ keyed (delete k todos).2) ∧
  (∀ t, (findById k todos).1 = Return (Some t) → id t = k).
Proof.
  intros Hwf Hk.
  destruct (repository_wf todo k todos Hwf) as (W1 & W2 & W3 & _).
  split; [split; [done|]|split; [split; [done|]|split; [split; [done|]|]]].
  - by apply JsMap_set_Forall.
  - destruct (decide (id todo ∈ JsMap.keys todos)) as [Hin|Hnin].
    + rewrite (update_return _ _ Hin). by apply JsMap_set_Forall.
    + by rewrite (update_throw _ _ Hnin).
  - destruct (decide (k ∈ JsMap.keys todos)) as [Hin|Hnin].
    + rewrite (delete_return _ _ Hin). by apply JsMap_delete_Forall.
    + by rewrite (delete_throw _ _ Hnin).
  - intros t. rewrite findById_run. simpl. intros [= H].
    by apply (keyed_get todos).
Qed.

Lemma repository_keyed_witness :
  JsMap.wf twoTodos ∧ keyed twoTodos ∧
  keyed (create payRent twoTodos).2 ∧
  ((findById (js "a") twoTodos).1 = Return (Some older) → id older = js "a").
Proof.
  assert (Hwf : JsMap.wf twoTodos).
  { apply NoDup_cons. split.
    - intros H. apply elem_of_cons in H as [H|H]; [discriminate H|].
      by apply not_elem_of_nil in H.
    - apply NoDup_singleton. }
  assert (Hk : keyed twoTodos) by (repeat constructor).
  split; [exact Hwf|]. split; [exact Hk|].
  pose proof (repository_keyed payRent (js "a") twoTodos Hwf Hk) as H.
  split; [exact (proj2 (proj1 H))|].
  exact (proj2 (proj2 (proj2 H)) older).
Defined.

(** X6. [create] never throws and enforces no uniqueness. On an id that is
    not yet a key it appends the entry at the end of the Map; on an id that
    is a key it does what [update] does, replacing the stored todo where it
    stands; of two [create]s with one id only the second is kept. *)
Theorem create_cases (t1 t2 : Todo) (todos : JsMap.t Todo) :
  (id t1 ∉ JsMap.keys todos →
     create t1 todos = (Return t1, todos ++ [(id t1, t1)])) ∧
  (id t1 ∈ JsMap.keys todos →
     create t1 todos = update t1 todos ∧
     JsMap.keys (create t1 todos).2 = JsMap.keys todos) ∧
  (id t1 = id t2 →
     (create t1;; create t2) todos = create t2 todos).
Proof.
  split; [|split].
  - intros H. by rewrite create_run, JsMap_set_absent.
  - intros H. rewrite (update_return _ _ H), create_run. split; [done|].
    simpl. by rewrite JsMap_keys_set, decide_True.
  - intros H.
    change ((create t1;; create t2) todos)
      with (create t2 (JsMap.set (id t1) t1 todos)).
    by rewrite !create_run, H, JsMap_set_set.
Qed.

Lemma create_cases_witness :
  ((id payRent ∉ JsMap.keys twoTodos) ∧
   create payRent twoTodos
   = (Return payRent, [(js "a", older); (js "b", newer); (js "t2", payRent)])) ∧
  (id (set_status COMPLETED older) ∈ JsMap.keys twoTodos ∧
   create (set_status COMPLETED older) twoTodos
   = update (set_status COMPLETED older) twoTodos) ∧
  (id older = id (set_status COMPLETED older) ∧
   (create older;; create (set_status COMPLETED older)) []
   = (Return (set_status COMPLETED older),
      [(js "a", set_status COMPLETED older)])).
Proof.
  assert (H1 : id payRent ∉ JsMap.keys twoTodos).
  { intros H. repeat (apply elem_of_cons in H as [H|H]; [discriminate H|]).
    by apply not_elem_of_nil in H. }
  assert (H2 : id (set_status COMPLETED older) ∈ JsMap.keys twoTodos).
  { apply list_elem_of_here. }
  split; [|split].
  - split; [exact H1|].
    exact (proj1 (create_cases payRent payRent twoTodos) H1).
  - split; [exact H2|].
    exact (proj1 (proj1 (proj2
      (create_cases (set_status COMPLETED older) older twoTodos)) H2)).
  - split; [reflexivity|].
    exact (proj2 (proj2
      (create_cases older (set_status COMPLETED older) [])) eq_refl).
Defined.

(** X7. [delete] undoes a [create]: creating a todo under an id that is not
    a key and deleting that id gives back the store exactly as it was.
    Whatever the store, of two [delete]s of one id the second throws; and
    after a [delete] that returns, [findById] gives [null] for the id and
    [update] of a todo with that id throws. *)
Theorem delete_cases (todo : Todo) (k : JsString) (todos : JsMap.t Todo) :
  (id todo ∉ JsMap.keys todos →
     (create todo;; delete (id todo)) todos = (Return (), todos)) ∧
  (delete k;; delete k) todos = (Throw (notFound k), JsMap.delete k todos) ∧
  (k ∈ JsMap.keys todos →
     (delete k;; findById k) todos = (Return None, JsMap.delete k todos)) ∧
  (id todo ∈ JsMap.keys todos →
     (delete (id todo);; update todo) todos
     = (Throw (notFound (id todo)), JsMap.delete (id todo) todos)).
Proof.
  assert (Hgone : ∀ j, j ∉ JsMap.keys (JsMap.delete j todos)).
  { intros j. rewrite JsMap_keys_delete. tauto. }
  split; [|split; [|split]].
  - intros H.
    change ((create todo;; delete (id todo)) todos)
      with (delete (id todo) (JsMap.set (id todo) todo todos)).
    rewrite delete_return.
    + by rewrite JsMap_delete_set_absent.
    + apply JsMap_get_Some. rewrite JsMap_get_set_eq. eauto.
  - change ((delete k;; delete k) todos)
      with (match delete k todos with
            | (Return _, s) => delete k s
            | (Throw e, s) => (Throw e, s)
            end).
    destruct (decide (k ∈ JsMap.keys todos)) as [Hin|Hnin].
    + rewrite (delete_return _ _ Hin). by apply delete_throw.
    + rewrite (delete_throw _ _ Hnin). by rewrite JsMap_delete_absent.
  - intros Hin.
    change ((delete k;; findById k) todos)
      with (match delete k todos with
            | (Return _, s) => findById k s
            | (Throw e, s) => (Throw e, s)
            end).
    by rewrite (delete_return _ _ Hin), findById_run, JsMap_get_delete_eq.
  - intros Hin.
    change ((delete (id todo);; update todo) todos)
      with (match delete (id todo) todos with
            | (Return _, s) => update todo s
            | (Throw e, s) => (Throw e, s)
            end).
    rewrite (delete_return _ _ Hin). by apply update_throw.
Qed.

Lemma delete_cases_witness :
  ((id payRent ∉ JsMap.keys twoTodos) ∧
   (create payRent;; delete (id payRent)) twoTodos = (Return (), twoTodos)) ∧
  (js "a" ∈ JsMap.keys twoTodos ∧
   (delete (js "a");; findById (js "a")) twoTodos
   = (Return None, [(js "b", newer)])) ∧
  (id older ∈ JsMap.keys twoTodos ∧
   (delete (id older);; update older) twoTodos
   = (Throw (notFound (js "a")), [(js "b", newer)])).
Proof.
  assert (H1 : id payRent ∉ JsMap.keys twoTodos).
  { intros H. repeat (apply elem_of_cons in H as [H|H]; [discriminate H|]).
    by apply not_elem_of_nil in H. }
  assert (H2 : js "a" ∈ JsMap.keys twoTodos) by apply list_elem_of_here.
  split; [|split].
  - split; [exact H1|].
    exact (proj1 (delete_cases payRent [] twoTodos) H1).
  - split; [exact H2|].
    exact (proj1 (proj2 (proj2 (delete_cases payRent (js "a") twoTodos))) H2).
  - split; [exact H2|].
    exact (proj2 (proj2 (proj2 (delete_cases older [] twoTodos))) H2).
Defined.

(** ** More on findAll *)

Lemma findAll_run (todos : JsMap.t Todo) :
  findAll todos = (Return (sort byCreatedAtDesc (JsMap.values todos)), todos).
Proof. reflexivity. Qed.

(** The comparator is positive exactly when both dates are valid and the
    second todo is the newer one. *)
Lemma byCreatedAtDesc_positive (x y : Todo) :
  (default 0 (byCreatedAtDesc x y) <=? 0) = false
  ↔ (createdAt x < createdAt y)%date.
Proof.
  unfold byCreatedAtDesc, Date_lt. rewrite Z.leb_gt.
  destruct (createdAt x), (createdAt y); simpl; split; try done; lia.
Qed.

Lemma byCreatedAtDesc_not_positive (x y : Todo) :
  ¬ (createdAt x < createdAt y)%date →
  (default 0 (byCreatedAtDesc x y) <=? 0) = true.
Proof.
  intros H. destruct (default 0 (byCreatedAtDesc x y) <=? 0) eqn:E; [done|].
  by apply byCreatedAtDesc_positive in E.
Qed.

Lemma sort_insert_instant (c : Date) (x : Todo) (l : list Todo) :
  filter (λ t, createdAt t = c) (sort_insert byCreatedAtDesc x l)
  = filter (λ t, createdAt t = c) (x :: l).
Proof.
  induction l as [|y l IH]; simpl; [done|].
  destruct (default 0 (byCreatedAtDesc x y) <=? 0) eqn:E; [done|].
  apply byCreatedAtDesc_positive in E. rewrite filter_cons, IH, !filter_cons.
  destruct (decide (createdAt y = c)) as [Ey|], (decide (createdAt x = c))
    as [Ex|]; try done.
  rewrite Ex, Ey in E. by apply Date_lt_irrefl in E.
Qed.

Lemma sort_instant (c : Date) (l : list Todo) :
  filter (λ t, createdAt t = c) (sort byCreatedAtDesc l)
  = filter (λ t, createdAt t = c) l.
Proof.
  induction l as [|x l IH]; simpl; [done|].
  by rewrite sort_insert_instant, !filter_cons, IH.
Qed.

(** Among todos all newer than [x], [x] goes last. *)
Lemma sort_insert_oldest (x : Todo) (l : list Todo) :
  Forall (λ y, (createdAt x < createdAt y)%date) l →
  sort_insert byCreatedAtDesc x l = l ++ [x].
Proof.
  induction 1 as [|y l Hy _ IH]; simpl; [done|].
  by rewrite (proj2 (byCreatedAtDesc_positive x y) Hy), IH.
Qed.

(** At the head of todos none of which is newer, [x] stays first. *)
Lemma sort_insert_newest (x : Todo) (l : list Todo) :
  Forall (newerFirst x) l → sort_insert byCreatedAtDesc x l = x :: l.
Proof.
  destruct 1 as [|y l Hy _]; simpl; [done|].
  rewrite byCreatedAtDesc_not_positive; [done|].
  intros H. by apply Date_lt_not_le in H.
Qed.

Lemma sort_sorted (l : list Todo) :
  StronglySorted newerFirst l → sort byCreatedAtDesc l = l.
Proof.
  induction 1 as [|x l Hl IH Hx]; simpl; [done|].
  rewrite IH. by apply sort_insert_newest.
Qed.

Lemma sort_reverse (l : list Todo) :
  StronglySorted (λ a b, (createdAt a < createdAt b)%date) l →
  sort byCreatedAtDesc l = reverse l.
Proof.
  induction 1 as [|x l Hl IH Hx]; simpl; [done|].
  rewrite IH, reverse_cons. apply sort_insert_oldest.
  by apply Forall_reverse.
Qed.

(** X8. [findAll()] is stable: when the [createdAt] of every stored todo is
    a valid date, the todos created at one and the same instant come out in
    the order in which the Map holds them. *)
Theorem findAll_stable (c : Date) (todos : JsMap.t Todo) :
  Forall validCreatedAt (JsMap.values todos) →
  ∃ l, findAll todos = (Return l, todos) ∧
       filter (λ t, createdAt t = c) l
       = filter (λ t, createdAt t = c) (JsMap.values todos).
Proof.
  intros _. eexists. split; [apply findAll_run|]. apply sort_instant.
Qed.

Lemma findAll_stable_witness :
  Forall validCreatedAt (JsMap.values sameInstant) ∧
  ∃ l, findAll sameInstant = (Return l, sameInstant) ∧
       l = [newer; older; olderTwin] ∧
       filter (λ t, createdAt t = Time 1000) l = [older; olderTwin].
Proof.
  assert (Hv : Forall validCreatedAt (JsMap.values sameInstant)).
  { repeat constructor; discriminate. }
  split; [exact Hv|].
  destruct (findAll_stable (Time 1000) sameInstant Hv) as (l & Hl & Hf).
  exists l. split; [exact Hl|].
  change (findAll sameInstant)
    with (Return [newer; older; olderTwin], sameInstant) in Hl.
  injection Hl as <-. split; [reflexivity | exact Hf].
Defined.

(** X9. How [findAll()] relates to the order of insertion, when the
    [createdAt] of every stored todo is a valid date. If the Map holds the
    todos newest first already, [findAll()] returns them as they are held; if
    it holds them in strictly ascending [createdAt], the order in which todos
    made one after the other are stored, [findAll()] returns them reversed;
    and when no two stored todos share a [createdAt], the result does not
    depend on the order of insertion at all. *)
Theorem findAll_insertion_order (todos todos' : JsMap.t Todo) :
  Forall validCreatedAt (JsMap.values todos) →
  (StronglySorted newerFirst (JsMap.values todos) →
     findAll todos = (Return (JsMap.values todos), todos)) ∧
  (StronglySorted (λ a b, (createdAt a < createdAt b)%date)
                  (JsMap.values todos) →
     findAll todos = (Return (reverse (JsMap.values todos)), todos)) ∧
  (JsMap.values todos ≡ₚ JsMap.values todos' →
   (∀ a b, a ∈ JsMap.values todos → b ∈ JsMap.values todos →
           createdAt a = createdAt b → a = b) →
     (findAll todos).1 = (findAll todos').1).
Proof.
  intros Hv. rewrite !findAll_run. split; [|split].
  - intros H. by rewrite sort_sorted.
  - intros H. by rewrite sort_reverse.
  - intros Hp Hinj. simpl. f_equal.
    assert (Hv' : Forall validCreatedAt (JsMap.values todos'))
      by by rewrite <-Hp.
    apply (StronglySorted_unique_strong newerFirst).
    + intros a b Ha Hb Hab Hba.
      rewrite sort_Permutation in Ha. rewrite sort_Permutation, <-Hp in Hb.
      apply Hinj; [done|done|].
      rewrite Forall_forall in Hv.
      destruct (validCreatedAt_time a (Hv a Ha)) as [ta Hta].
      destruct (validCreatedAt_time b (Hv b Hb)) as [tb Htb].
      apply (newerFirst_time a b ta tb Hta Htb) in Hab.
      apply (newerFirst_time b a tb ta Htb Hta) in Hba.
      rewrite Hta, Htb. f_equal. lia.
    + by apply sort_newerFirst.
    + by apply sort_newerFirst.
    + by rewrite !sort_Permutation.
Qed.

Lemma findAll_insertion_order_witness :
  Forall validCreatedAt (JsMap.values twoTodos) ∧
  StronglySorted (λ a b, (createdAt a < createdAt b)%date)
                 (JsMap.values twoTodos) ∧
  findAll twoTodos = (Return [newer; older], twoTodos) ∧
  JsMap.values twoTodos
    ≡ₚ JsMap.values [(js "b", newer); (js "a", older)] ∧
  (findAll twoTodos).1 = (findAll [(js "b", newer); (js "a", older)]).1.
Proof.
  assert (Hv : Forall validCreatedAt (JsMap.values twoTodos)).
  { repeat constructor; discriminate. }
  assert (H1 : StronglySorted (λ a b, (createdAt a < createdAt b)%date)
                 (JsMap.values twoTodos)).
  { repeat constructor. }
  assert (H2 : JsMap.values twoTodos
                 ≡ₚ JsMap.values [(js "b", newer); (js "a", older)]).
  { apply Permutation_swap. }
  split; [exact Hv|]. split; [exact H1|]. split.
  - exact (proj1 (proj2 (findAll_insertion_order twoTodos [] Hv)) H1).
  - split; [exact H2|].
    apply (proj2 (proj2 (findAll_insertion_order twoTodos _ Hv)) H2).
    intros a b Ha Hb Hab.
    apply elem_of_cons in Ha as [->|Ha]; apply elem_of_cons in Hb as [->|Hb];
      try done.
    + apply list_elem_of_singleton in Hb as ->. discriminate Hab.
    + apply list_elem_of_singleton in Ha as ->. discriminate Hab.
    + apply list_elem_of_singleton in Ha as ->.
      by apply list_elem_of_singleton in Hb as ->.
Defined.

Lemma JsMap_set_present {V} (m : JsMap.t V) (k : JsString) (old v : V) :
  JsMap.get k m = Some old →
  ∃ m1 m2, m = m1 ++ (k, old) :: m2 ∧ JsMap.set k v m = m1 ++ (k, v) :: m2.
Proof.
  induction m as [|[k' v'] m IH]; simpl; [done|].
  destruct (decide (k = k')) as [->|Hne].
  - intros [= ->]. by exists [], m.
  - intros Hget. destruct (IH Hget) as (m1 & m2 & -> & ->).
    by exists ((k', v') :: m1), m2.
Qed.

(** X10. The variant of the repository whose [findAll()] does not sort
    returns the todos as the Map holds them: a todo created under a new id
    comes last, and a todo created over an id that is a key takes the place
    of the old one. Sorting its result newest first, stably, gives the result
    of the sorting [findAll()]. *)
Theorem findAll_insertionOrder_spec (todo : Todo) (todos : JsMap.t Todo) :
  (id todo ∉ JsMap.keys todos →
     (create todo;; findAll_insertionOrder) todos
     = (Return (JsMap.values todos ++ [todo]), todos ++ [(id todo, todo)])) ∧
  (∀ old, JsMap.get (id todo) todos = Some old →
     ∃ m1 m2, todos = m1 ++ (id todo, old) :: m2 ∧
       (create todo;; findAll_insertionOrder) todos
       = (Return (JsMap.values m1 ++ todo :: JsMap.values m2),
          m1 ++ (id todo, todo) :: m2)) ∧
  (∃ l, findAll_insertionOrder todos = (Return l, todos) ∧
        findAll todos = (Return (sort byCreatedAtDesc l), todos)).
Proof.
  assert (Hrun : ∀ s, (create todo;; findAll_insertionOrder) s
                      = (Return (JsMap.values (JsMap.set (id todo) todo s)),
                         JsMap.set (id todo) todo s)) by done.
  split; [|split].
  - intros H. rewrite Hrun, (JsMap_set_absent _ _ _ H).
    unfold JsMap.values. by rewrite fmap_app.
  - intros old Hold.
    destruct (JsMap_set_present todos (id todo) old todo Hold)
      as (m1 & m2 & Hm & Hset).
    exists m1, m2. split; [done|]. rewrite Hrun, Hset.
    unfold JsMap.values. by rewrite fmap_app.
  - by eexists.
Qed.

Lemma findAll_insertionOrder_spec_witness :
  ((id payRent ∉ JsMap.keys twoTodos) ∧
   (create payRent;; findAll_insertionOrder) twoTodos
   = (Return [older; newer; payRent],
      [(js "a", older); (js "b", newer); (js "t2", payRent)])) ∧
  (JsMap.get (id (set_status COMPLETED older)) twoTodos = Some older ∧
   ∃ m1 m2, twoTodos = m1 ++ (js "a", older) :: m2 ∧
     (create (set_status COMPLETED older);; findAll_insertionOrder) twoTodos
     = (Return (JsMap.values m1 ++ set_status COMPLETED older :: JsMap.values m2),
        m1 ++ (js "a", set_status COMPLETED older) :: m2)).
Proof.
  assert (H1 : id payRent ∉ JsMap.keys twoTodos).
  { intros H. repeat (apply elem_of_cons in H as [H|H]; [discriminate H|]).
    by apply not_elem_of_nil in H. }
  split.
  - split; [exact H1|].
    exact (proj1 (findAll_insertionOrder_spec payRent twoTodos) H1).
  - split; [reflexivity|].
    exact (proj1 (proj2
      (findAll_insertionOrder_spec (set_status COMPLETED older) twoTodos))
      older eq_refl).
Defined.

(** ** The use cases *)

Lemma onStored_return (k : JsString) (t t' : Todo) (m : Method Todo ())
    (todos : JsMap.t Todo) :
  m t = (Return (), t') →
  onStored k t m todos = (Return t', JsMap.set k t' todos).
Proof. intros H. unfold onStored. by rewrite H. Qed.

Lemma onStored_throw (k : JsString) (t : Todo) (e : JsError) (m : Method Todo ())
    (todos : JsMap.t Todo) :
  m t = (Throw e, t) → JsMap.get k todos = Some t →
  onStored k t m todos = (Throw e, todos).
Proof.
  intros H Hget. unfold onStored. by rewrite H, JsMap_set_same.
Qed.

Lemma CreateTodoUseCase_throw (newId : JsString) (now1 now2 : Date)
    (request : CreateTodoRequest.t) (todos : JsMap.t Todo) :
  trim (CreateTodoRequest.title request) = [] →
  CreateTodoUseCase.execute newId now1 now2 request todos
  = (Throw (mkError (js "Title cannot be empty")), todos).
Proof. intros H. unfold CreateTodoUseCase.execute. by rewrite H. Qed.

Lemma CreateTodoUseCase_return (newId : JsString) (now1 now2 : Date)
    (request : CreateTodoRequest.t) (todos : JsMap.t Todo) :
  trim (CreateTodoRequest.title request) ≠ [] →
  CreateTodoUseCase.execute newId now1 now2 request todos
  = create (mkTodo newId (trim (CreateTodoRequest.title request))
                   (trim (CreateTodoRequest.description request))
                   PENDING now1 now2) todos.
Proof.
  intros H. unfold CreateTodoUseCase.execute. simpl.
  destruct (trim (CreateTodoRequest.title request)); done.
Qed.

(** X11. [CreateTodoUseCase.execute]. A request whose title is blank throws
    [Error('Title cannot be empty')] and stores nothing. Any other request
    returns a pending todo with the given id, the trimmed title and
    description and the two clock readings, stored under its id, where
    [findById] finds it; the todo can be completed at once. *)
Theorem CreateTodoUseCase_spec (newId : JsString) (now1 now2 : Date)
    (request : CreateTodoRequest.t) (todos : JsMap.t Todo) :
  (trim (CreateTodoRequest.title request) = [] →
     CreateTodoUseCase.execute newId now1 now2 request todos
     = (Throw (mkError (js "Title cannot be empty")), todos)) ∧
  (trim (CreateTodoRequest.title request) ≠ [] →
     ∃ todo,
       todo = mkTodo newId (trim (CreateTodoRequest.title request))
                     (trim (CreateTodoRequest.description request))
                     PENDING now1 now2 ∧
       CreateTodoUseCase.execute newId now1 now2 request todos
       = (Return todo, JsMap.set newId todo todos) ∧
       (CreateTodoUseCase.execute newId now1 now2 request;; findById newId)
         todos
       = (Return (Some todo), JsMap.set newId todo todos) ∧
       canBeCompleted todo = true).
Proof.
  split; [apply CreateTodoUseCase_throw|].
  intros H. eexists. split; [reflexivity|].
  split; [by rewrite CreateTodoUseCase_return|]. split.
  - change ((CreateTodoUseCase.execute newId now1 now2 request;;
             findById newId) todos)
      with (match CreateTodoUseCase.execute newId now1 now2 request todos with
            | (Return _, s) => findById newId s
            | (Throw e, s) => (Throw e, s)
            end).
    rewrite CreateTodoUseCase_return, create_run by done. simpl.
    by rewrite findById_run, JsMap_get_set_eq.
  - apply canBeCompleted_true. simpl. by rewrite trim_trim.
Qed.

Lemma CreateTodoUseCase_spec_witness :
  (trim (CreateTodoRequest.title (CreateTodoRequest.mk (js "  ") (js "x"))) = [] ∧
   CreateTodoUseCase.execute (js "todo_1") 5000 5001
     (CreateTodoRequest.mk (js "  ") (js "x")) twoTodos
   = (Throw (mkError (js "Title cannot be empty")), twoTodos)) ∧
  (trim (CreateTodoRequest.title
           (CreateTodoRequest.mk (js " Buy milk ") (js " 2 l "))) ≠ [] ∧
   ∃ todo,
     todo = mkTodo (js "todo_1") (js "Buy milk") (js "2 l") PENDING 5000 5001 ∧
     CreateTodoUseCase.execute (js "todo_1") 5000 5001
       (CreateTodoRequest.mk (js " Buy milk ") (js " 2 l ")) []
     = (Return todo, [(js "todo_1", todo)])).
Proof.
  split.
  - split; [reflexivity|].
    apply (proj1 (CreateTodoUseCase_spec _ _ _ _ _)). reflexivity.
  - split; [discriminate|].
    destruct (proj2 (CreateTodoUseCase_spec (js "todo_1") 5000 5001
      (CreateTodoRequest.mk (js " Buy milk ") (js " 2 l ")) []))
      as (todo & Htodo & Hrun & _); [discriminate|].
    exists todo. split; [exact Htodo|]. rewrite Hrun. by rewrite Htodo.
Defined.

Lemma Toggle_found (now : Date) (k : JsString) (t : Todo) (todos : JsMap.t Todo) :
  JsMap.get k todos = Some t →
  ToggleTodoStatusUseCase.execute now k todos
  = match onStored k t (if isPending t then complete now else uncomplete now)
            todos with
    | (Return t', s) => update t' s
    | (Throw e, s) => (Throw e, s)
    end.
Proof.
  intros H. unfold ToggleTodoStatusUseCase.execute, findById. run_method.
  by rewrite H.
Qed.

Lemma Toggle_missing (now : Date) (k : JsString) (todos : JsMap.t Todo) :
  k ∉ JsMap.keys todos →
  ToggleTodoStatusUseCase.execute now k todos = (Throw (notFound k), todos).
Proof.
  intros H%JsMap_get_None.
  unfold ToggleTodoStatusUseCase.execute, findById. run_method. by rewrite H.
Qed.

(** The status a toggle leads to. *)
Lemma Toggle_flip (now : Date) (k : JsString) (t : Todo) (todos : JsMap.t Todo) :
  JsMap.get k todos = Some t → id t = k → trim (title t) ≠ [] →
  ToggleTodoStatusUseCase.execute now k todos
  = (Return (mkTodo (id t) (title t) (description t)
                    (match status t with
                     | PENDING => COMPLETED
                     | COMPLETED => PENDING
                     end) (createdAt t) now),
     JsMap.set k (mkTodo (id t) (title t) (description t)
                    (match status t with
                     | PENDING => COMPLETED
                     | COMPLETED => PENDING
                     end) (createdAt t) now) todos).
Proof.
  intros Hget Hid Ht. rewrite (Toggle_found _ _ _ _ Hget).
  assert (Hin : ∀ t', k ∈ JsMap.keys (JsMap.set k t' todos)).
  { intros t'. apply JsMap_get_Some. rewrite JsMap_get_set_eq. eauto. }
  unfold isPending. destruct (status t) eqn:Hs; simpl.
  - erewrite onStored_return;
      [|by apply complete_return, canBeCompleted_true].
    rewrite update_return by (simpl; rewrite Hid; apply Hin).
    simpl. by rewrite Hid, JsMap_set_set.
  - erewrite onStored_return;
      [|by apply uncomplete_return, canBeUncompleted_true].
    rewrite update_return by (simpl; rewrite Hid; apply Hin).
    simpl. by rewrite Hid, JsMap_set_set.
Qed.

Lemma Toggle_blank (now : Date) (k : JsString) (t : Todo) (todos : JsMap.t Todo) :
  JsMap.get k todos = Some t → status t = PENDING → trim (title t) = [] →
  ToggleTodoStatusUseCase.execute now k todos
  = (Throw (mkError (js "Todo cannot be completed")), todos).
Proof.
  intros Hget Hs Ht. rewrite (Toggle_found _ _ _ _ Hget).
  unfold isPending. rewrite Hs. simpl.
  rewrite (onStored_throw k t (mkError (js "Todo cannot be completed")));
    [done| |done].
  apply complete_throw, canBeCompleted_false. by right.
Qed.

Lemma Toggle_completed (now : Date) (k : JsString) (t : Todo)
    (todos : JsMap.t Todo) :
  JsMap.get k todos = Some t → id t = k → status t = COMPLETED →
  ToggleTodoStatusUseCase.execute now k todos
  = (Return (mkTodo (id t) (title t) (description t) PENDING (createdAt t) now),
     JsMap.set k (mkTodo (id t) (title t) (description t) PENDING
                         (createdAt t) now) todos).
Proof.
  intros Hget Hid Hs. rewrite (Toggle_found _ _ _ _ Hget).
  unfold isPending. rewrite Hs. simpl.
  erewrite onStored_return;
    [|by apply uncomplete_return, canBeUncompleted_true].
  rewrite update_return.
  - simpl. by rewrite Hid, JsMap_set_set.
  - simpl. rewrite Hid. apply JsMap_get_Some. rewrite JsMap_get_set_eq. eauto.
Qed.

(** A toggle writes under the key [k] only, if at all. *)
Lemma Toggle_cases (now : Date) (k : JsString) (todos : JsMap.t Todo) :
  (∀ t, JsMap.get k todos = Some t → id t = k) →
  (∃ e, ToggleTodoStatusUseCase.execute now k todos = (Throw e, todos)) ∨
  (∃ t t', JsMap.get k todos = Some t ∧
           id t' = k ∧ title t' = title t ∧
           ToggleTodoStatusUseCase.execute now k todos
           = (Return t', JsMap.set k t' todos)).
Proof.
  intros Hk. destruct (JsMap.get k todos) as [t|] eqn:Hget.
  - specialize (Hk t eq_refl). destruct (status t) eqn:Hs.
    + destruct (decide (trim (title t) = [])) as [Ht|Ht].
      * left. rewrite (Toggle_blank _ _ _ _ Hget Hs Ht). eauto.
      * right. rewrite (Toggle_flip _ _ _ _ Hget Hk Ht).
        exists t. eexists. split; [done|].
        split; [|split]; [| |reflexivity]; done.
    + right. rewrite (Toggle_completed _ _ _ _ Hget Hk Hs).
      exists t. eexists. split; [done|].
      split; [|split]; [| |reflexivity]; done.
  - left. rewrite Toggle_missing by by apply JsMap_get_None. eauto.
Qed.

(** X12. [ToggleTodoStatusUseCase.execute(id)]. For an id that is not a key
    it throws [Error(`Todo with id ${id} not found`)] and the store stays as
    it was. For a stored todo kept under its own id whose title is not
    blank it returns the todo with the status flipped (pending to completed,
    completed to pending) and [updatedAt] set to the clock reading, all
    other fields kept, and the store holds that todo in the same place. For
    a stored pending todo whose title is blank it throws
    [Error('Todo cannot be completed')] and the store stays as it was. In
    a store whose entry for [id] sits under its own id, no other entry and
    no key changes. *)
Theorem ToggleTodoStatusUseCase_spec
    (now : Date) (k : JsString) (t : Todo) (todos : JsMap.t Todo) :
  (k ∉ JsMap.keys todos →
     ToggleTodoStatusUseCase.execute now k todos
     = (Throw (notFound k), todos)) ∧
  (JsMap.get k todos = Some t → id t = k → trim (title t) ≠ [] →
     ToggleTodoStatusUseCase.execute now k todos
     = (Return (mkTodo (id t) (title t) (description t)
                       (match status t with
                        | PENDING => COMPLETED
                        | COMPLETED => PENDING
                        end) (createdAt t) now),
        JsMap.set k (mkTodo (id t) (title t) (description t)
                       (match status t with
                        | PENDING => COMPLETED
                        | COMPLETED => PENDING
                        end) (createdAt t) now) todos)) ∧
  (JsMap.get k todos = Some t → status t = PENDING → trim (title t) = [] →
     ToggleTodoStatusUseCase.execute now k todos
     = (Throw (mkError (js "Todo cannot be completed")), todos)) ∧
  ((∀ t0, JsMap.get k todos = Some t0 → id t0 = k) →
     JsMap.keys (ToggleTodoStatusUseCase.execute now k todos).2
     = JsMap.keys todos ∧
     ∀ j, k ≠ j →
       JsMap.get j (ToggleTodoStatusUseCase.execute now k todos).2
       = JsMap.get j todos).
Proof.
  split; [apply Toggle_missing|]. split; [apply Toggle_flip|].
  split; [apply Toggle_blank|].
  intros Hk. destruct (Toggle_cases now k todos Hk)
    as [[e ->]|(t0 & t' & Hget & _ & _ & ->)]; simpl; [done|].
  split.
  - rewrite JsMap_keys_set, decide_True; [done|].
    apply JsMap_get_Some. eauto.
  - intros j Hj. by apply JsMap_get_set_ne.
Qed.

Lemma ToggleTodoStatusUseCase_spec_witness :
  ((js "missing" ∉ JsMap.keys oneTodo) ∧
   ToggleTodoStatusUseCase.execute 5000 (js "missing") oneTodo
   = (Throw (notFound (js "missing")), oneTodo)) ∧
  (JsMap.get (js "t1") oneTodo = Some buyMilk ∧ id buyMilk = js "t1" ∧
   trim (title buyMilk) ≠ [] ∧
   ToggleTodoStatusUseCase.execute 5000 (js "t1") oneTodo
   = (Return (mkTodo (js "t1") (js "Buy milk") [] COMPLETED 1000 5000),
      [(js "t1", mkTodo (js "t1") (js "Buy milk") [] COMPLETED 1000 5000)])) ∧
  (JsMap.get (js "t3") blankStore = Some blank ∧ status blank = PENDING ∧
   trim (title blank) = [] ∧
   ToggleTodoStatusUseCase.execute 5000 (js "t3") blankStore
   = (Throw (mkError (js "Todo cannot be completed")), blankStore)) ∧
  ((∀ t0, JsMap.get (js "a") twoTodos = Some t0 → id t0 = js "a") ∧
   JsMap.get (js "b") (ToggleTodoStatusUseCase.execute 5000 (js "a") twoTodos).2
   = JsMap.get (js "b") twoTodos).
Proof.
  assert (H1 : js "missing" ∉ JsMap.keys oneTodo).
  { intros H. repeat (apply elem_of_cons in H as [H|H]; [discriminate H|]).
    by apply not_elem_of_nil in H. }
  assert (H4 : ∀ t0, JsMap.get (js "a") twoTodos = Some t0 → id t0 = js "a").
  { intros t0 [= <-]. reflexivity. }
  split; [|split; [|split]].
  - split; [exact H1|].
    exact (proj1 (ToggleTodoStatusUseCase_spec 5000 _ buyMilk oneTodo) H1).
  - split; [reflexivity|]. split; [reflexivity|]. split; [discriminate|].
    apply (proj1 (proj2
      (ToggleTodoStatusUseCase_spec 5000 (js "t1") buyMilk oneTodo)));
      [reflexivity|reflexivity|discriminate].
  - split; [reflexivity|]. split; [reflexivity|]. split; [reflexivity|].
    apply (proj1 (proj2 (proj2
      (ToggleTodoStatusUseCase_spec 5000 (js "t3") blank blankStore))));
      reflexivity.
  - split; [exact H4|].
    apply (proj2 (proj2 (proj2 (proj2
      (ToggleTodoStatusUseCase_spec 5000 (js "a") older twoTodos))) H4)).
    discriminate.
Defined.

(** X13. Toggling twice gives back the todo it started from, with only
    [updatedAt] moved to the second clock reading: for a stored todo kept
    under its own id whose title is not blank, both calls return, and the
    store ends with that todo in its old place. *)
Theorem Toggle_twice
    (now1 now2 : Date) (k : JsString) (t : Todo) (todos : JsMap.t Todo) :
  JsMap.get k todos = Some t → id t = k → trim (title t) ≠ [] →
  (ToggleTodoStatusUseCase.execute now1 k;;
   ToggleTodoStatusUseCase.execute now2 k) todos
  = (Return (set_updatedAt now2 t), JsMap.set k (set_updatedAt now2 t) todos).
Proof.
  intros Hget Hid Ht.
  change ((ToggleTodoStatusUseCase.execute now1 k;;
           ToggleTodoStatusUseCase.execute now2 k) todos)
    with (match ToggleTodoStatusUseCase.execute now1 k todos with
          | (Return _, s) => ToggleTodoStatusUseCase.execute now2 k s
          | (Throw e, s) => (Throw e, s)
          end).
  rewrite (Toggle_flip _ _ _ _ Hget Hid Ht).
  erewrite Toggle_flip; [|apply JsMap_get_set_eq|done|done].
  simpl. rewrite JsMap_set_set. unfold set_updatedAt.
  by destruct (status t).
Qed.

Lemma Toggle_twice_witness :
  JsMap.get (js "t1") oneTodo = Some buyMilk ∧ id buyMilk = js "t1" ∧
  trim (title buyMilk) ≠ [] ∧
  (ToggleTodoStatusUseCase.execute 5000 (js "t1");;
   ToggleTodoStatusUseCase.execute 6000 (js "t1")) oneTodo
  = (Return (mkTodo (js "t1") (js "Buy milk") [] PENDING 1000 6000),
     [(js "t1", mkTodo (js "t1") (js "Buy milk") [] PENDING 1000 6000)]).
Proof.
  split; [reflexivity|]. split; [reflexivity|]. split; [discriminate|].
  apply (Toggle_twice 5000 6000 (js "t1") buyMilk oneTodo);
    [reflexivity|reflexivity|discriminate].
Defined.

Lemma Update_found (now1 now2 : Date) (request : UpdateTodoRequest.t)
    (t : Todo) (todos : JsMap.t Todo) :
  JsMap.get (UpdateTodoRequest.id request) todos = Some t →
  UpdateTodoUseCase.execute now1 now2 request todos
  = match
      match UpdateTodoRequest.title request with
      | Some newTitle =>
          onStored (UpdateTodoRequest.id request) t (updateTitle now1 newTitle)
      | None => mret t
      end todos
    with
    | (Return t1, s1) =>
        match
          match UpdateTodoRequest.description request with
          | Some newDescription =>
              onStored (UpdateTodoRequest.id request) t1
                       (updateDescription now2 newDescription)
          | None => mret t1
          end s1
        with
        | (Return t2, s2) => update t2 s2
        | (Throw e, s2) => (Throw e, s2)
        end
    | (Throw e, s1) => (Throw e, s1)
    end.
Proof.
  intros H. unfold UpdateTodoUseCase.execute, findById. run_method.
  by rewrite H.
Qed.

Lemma Update_missing (now1 now2 : Date) (request : UpdateTodoRequest.t)
    (todos : JsMap.t Todo) :
  UpdateTodoRequest.id request ∉ JsMap.keys todos →
  UpdateTodoUseCase.execute now1 now2 request todos
  = (Throw (notFound (UpdateTodoRequest.id request)), todos).
Proof.
  intros H%JsMap_get_None.
  unfold UpdateTodoUseCase.execute, findById. run_method. by rewrite H.
Qed.

Lemma Update_blank (now1 now2 : Date) (request : UpdateTodoRequest.t)
    (newTitle : JsString) (t : Todo) (todos : JsMap.t Todo) :
  JsMap.get (UpdateTodoRequest.id request) todos = Some t →
  UpdateTodoRequest.title request = Some newTitle → trim newTitle = [] →
  UpdateTodoUseCase.execute now1 now2 request todos
  = (Throw (mkError (js "Title cannot be empty")), todos).
Proof.
  intros Hget Hti Hnt. rewrite (Update_found _ _ _ _ _ Hget), Hti.
  by rewrite (onStored_throw _ t (mkError (js "Title cannot be empty")))
    by (by apply updateTitle_throw || done).
Qed.

Lemma Update_return (now1 now2 : Date) (request : UpdateTodoRequest.t)
    (t : Todo) (todos : JsMap.t Todo) :
  JsMap.get (UpdateTodoRequest.id request) todos = Some t →
  id t = UpdateTodoRequest.id request →
  (∀ newTitle, UpdateTodoRequest.title request = Some newTitle →
               trim newTitle ≠ []) →
  let t1 := match UpdateTodoRequest.title request with
            | Some newTitle => set_updatedAt now1 (set_title (trim newTitle) t)
            | None => t
            end in
  let t2 := match UpdateTodoRequest.description request with
            | Some newDescription =>
                set_updatedAt now2 (set_description (trim newDescription) t1)
            | None => t1
            end in
  UpdateTodoUseCase.execute now1 now2 request todos
  = (Return t2, JsMap.set (UpdateTodoRequest.id request) t2 todos).
Proof.
  intros Hget Hid Hti t1 t2. rewrite (Update_found _ _ _ _ _ Hget).
  set (k := UpdateTodoRequest.id request) in *.
  assert (H1 : match UpdateTodoRequest.title request with
               | Some newTitle => onStored k t (updateTitle now1 newTitle)
               | None => mret t
               end todos = (Return t1, JsMap.set k t1 todos)).
  { subst t1. destruct (UpdateTodoRequest.title request) as [newTitle|].
    - apply onStored_return. by apply updateTitle_return, Hti.
    - by rewrite (JsMap_set_same _ _ _ Hget). }
  rewrite H1.
  assert (H2 : match UpdateTodoRequest.description request with
               | Some newDescription =>
                   onStored k t1 (updateDescription now2 newDescription)
               | None => mret t1
               end (JsMap.set k t1 todos)
               = (Return t2, JsMap.set k t2 todos)).
  { subst t2. destruct (UpdateTodoRequest.description request) as [d|].
    - erewrite onStored_return by apply updateDescription_return.
      by rewrite JsMap_set_set.
    - done. }
  rewrite H2.
  assert (Hid2 : id t2 = k).
  { subst t2 t1.
    by destruct (UpdateTodoRequest.title request),
                (UpdateTodoRequest.description request). }
  rewrite update_return.
  - by rewrite Hid2, JsMap_set_set.
  - rewrite Hid2. apply JsMap_get_Some. rewrite JsMap_get_set_eq. eauto.
Qed.

(** X14. [UpdateTodoUseCase.execute(request)]. For an id that is not a key
    it throws [Error(`Todo with id ${id} not found`)]; for a title given but
    blank it throws [Error('Title cannot be empty')], and then the
    description of the request is not written either: in both cases the
    store stays as it was. Otherwise, on a todo kept under its own id, it
    returns the todo with the trimmed title if one is given, the trimmed
    description if one is given, and [updatedAt] at the clock reading of the
    last setter called, and the store holds that todo in the same place. A
    request with neither title nor description returns the stored todo
    untouched, [updatedAt] included. *)
Theorem UpdateTodoUseCase_spec (now1 now2 : Date)
    (request : UpdateTodoRequest.t) (t : Todo) (todos : JsMap.t Todo) :
  (UpdateTodoRequest.id request ∉ JsMap.keys todos →
     UpdateTodoUseCase.execute now1 now2 request todos
     = (Throw (notFound (UpdateTodoRequest.id request)), todos)) ∧
  (JsMap.get (UpdateTodoRequest.id request) todos = Some t →
   ∀ newTitle, UpdateTodoRequest.title request = Some newTitle →
               trim newTitle = [] →
     UpdateTodoUseCase.execute now1 now2 request todos
     = (Throw (mkError (js "Title cannot be empty")), todos)) ∧
  (JsMap.get (UpdateTodoRequest.id request) todos = Some t →
   id t = UpdateTodoRequest.id request →
   (∀ newTitle, UpdateTodoRequest.title request = Some newTitle →
                trim newTitle ≠ []) →
     let t1 := match UpdateTodoRequest.title request with
               | Some newTitle =>
                   set_updatedAt now1 (set_title (trim newTitle) t)
               | None => t
               end in
     let t2 := match UpdateTodoRequest.description request with
               | Some newDescription =>
                   set_updatedAt now2 (set_description (trim newDescription) t1)
               | None => t1
               end in
     UpdateTodoUseCase.execute now1 now2 request todos
     = (Return t2, JsMap.set (UpdateTodoRequest.id request) t2 todos)) ∧
  (JsMap.get (UpdateTodoRequest.id request) todos = Some t →
   id t = UpdateTodoRequest.id request →
   UpdateTodoRequest.title request = None →
   UpdateTodoRequest.description request = None →
     UpdateTodoUseCase.execute now1 now2 request todos = (Return t, todos)).
Proof.
  split; [apply Update_missing|]. split.
  { intros Hget newTitle Hti Hnt. by eapply Update_blank. }
  split; [apply Update_return|].
  intros Hget Hid Hti Hde.
  rewrite (Update_return now1 now2 request t todos Hget Hid)
    by (intros ?; by rewrite Hti).
  rewrite Hti, Hde. by rewrite (JsMap_set_same _ _ _ Hget).
Qed.

Lemma UpdateTodoUseCase_spec_witness :
  ((UpdateTodoRequest.id (UpdateTodoRequest.mk (js "missing") None None)
      ∉ JsMap.keys oneTodo) ∧
   UpdateTodoUseCase.execute 5000 5001
     (UpdateTodoRequest.mk (js "missing") None None) oneTodo
   = (Throw (notFound (js "missing")), oneTodo)) ∧
  (trim (js "  ") = [] ∧
   UpdateTodoUseCase.execute 5000 5001
     (UpdateTodoRequest.mk (js "t1") (Some (js "  ")) (Some (js "2 l")))
     oneTodo
   = (Throw (mkError (js "Title cannot be empty")), oneTodo)) ∧
  (trim (js " Buy bread ") ≠ [] ∧
   UpdateTodoUseCase.execute 5000 5001
     (UpdateTodoRequest.mk (js "t1") (Some (js " Buy bread ")) (Some (js " 1 kg ")))
     oneTodo
   = (Return (mkTodo (js "t1") (js "Buy bread") (js "1 kg") PENDING 1000 5001),
      [(js "t1",
        mkTodo (js "t1") (js "Buy bread") (js "1 kg") PENDING 1000 5001)])) ∧
  UpdateTodoUseCase.execute 5000 5001
    (UpdateTodoRequest.mk (js "t1") None None) oneTodo
  = (Return buyMilk, oneTodo).
Proof.
  assert (H1 : js "missing" ∉ JsMap.keys oneTodo).
  { intros H. repeat (apply elem_of_cons in H as [H|H]; [discriminate H|]).
    by apply not_elem_of_nil in H. }
  split; [|split; [|split]].
  - split; [exact H1|].
    exact (proj1 (UpdateTodoUseCase_spec 5000 5001
      (UpdateTodoRequest.mk (js "missing") None None) buyMilk oneTodo) H1).
  - split; [reflexivity|].
    exact (proj1 (proj2 (UpdateTodoUseCase_spec 5000 5001
      (UpdateTodoRequest.mk (js "t1") (Some (js "  ")) (Some (js "2 l")))
      buyMilk oneTodo)) eq_refl (js "  ") eq_refl eq_refl).
  - split; [discriminate|].
    apply (proj1 (proj2 (proj2 (UpdateTodoUseCase_spec 5000 5001
      (UpdateTodoRequest.mk (js "t1") (Some (js " Buy bread "))
         (Some (js " 1 kg "))) buyMilk oneTodo))));
      [reflexivity|reflexivity|].
    intros newTitle [= <-]. discriminate.
  - exact (proj2 (proj2 (proj2 (UpdateTodoUseCase_spec 5000 5001
      (UpdateTodoRequest.mk (js "t1") None None) buyMilk oneTodo)))
      eq_refl eq_refl eq_refl eq_refl).
Defined.

(** ** The store behind the use cases *)

Lemma titled_get (todos : JsMap.t Todo) (k : JsString) (t : Todo) :
  titled todos → JsMap.get k todos = Some t → trim (title t) ≠ [].
Proof.
  unfold titled. rewrite Forall_forall.
  intros Ht Hget%JsMap_get_entry. exact (Ht _ Hget).
Qed.

Lemma set_invariants (todos : JsMap.t Todo) (k : JsString) (t : Todo) :
  id t = k → trim (title t) ≠ [] →
  JsMap.wf todos ∧ keyed todos ∧ titled todos →
  JsMap.wf (JsMap.set k t todos) ∧ keyed (JsMap.set k t todos)
  ∧ titled (JsMap.set k t todos).
Proof.
  intros Hid Ht (Hwf & Hk & Hti). split; [by apply JsMap_wf_set|].
  split; by apply JsMap_set_Forall.
Qed.

Lemma serve_invariants (r : Request) (todos : JsMap.t Todo) :
  JsMap.wf todos ∧ keyed todos ∧ titled todos →
  JsMap.wf (serve r todos) ∧ keyed (serve r todos) ∧ titled (serve r todos).
Proof.
  intros Hinv. pose proof Hinv as (Hwf & Hk & Hti).
  destruct r as [newId now1 now2 request|now1 now2 request|now k| |k]; simpl.
  - destruct (decide (trim (CreateTodoRequest.title request) = [])) as [E|E].
    + by rewrite (CreateTodoUseCase_throw _ _ _ _ _ E).
    + rewrite (CreateTodoUseCase_return _ _ _ _ _ E), create_run. simpl.
      apply set_invariants; [done| |done]. simpl. by rewrite trim_trim.
  - destruct (JsMap.get (UpdateTodoRequest.id request) todos) as [t|] eqn:Hget.
    + pose proof (keyed_get _ _ _ Hk Hget) as Hid.
      pose proof (titled_get _ _ _ Hti Hget) as Ht.
      destruct (UpdateTodoRequest.title request) as [newTitle|] eqn:Hnt.
      * destruct (decide (trim newTitle = [])) as [E|E].
        -- by rewrite (Update_blank _ _ _ _ _ _ Hget Hnt E).
        -- rewrite (Update_return _ _ _ _ _ Hget Hid)
             by (rewrite Hnt; by intros ? [= <-]).
           rewrite Hnt. simpl. apply set_invariants; [| |done].
           ++ by destruct (UpdateTodoRequest.description request).
           ++ destruct (UpdateTodoRequest.description request); simpl;
                by rewrite trim_trim.
      * rewrite (Update_return _ _ _ _ _ Hget Hid)
          by (rewrite Hnt; by intros ?).
        rewrite Hnt. simpl. apply set_invariants; [| |done];
          by destruct (UpdateTodoRequest.description request).
    + rewrite Update_missing by by apply JsMap_get_None. done.
  - destruct (Toggle_cases now k todos)
      as [[e ->]|(t & t' & Hget & Hid & Htt & ->)]; simpl.
    + intros t. by apply keyed_get.
    + done.
    + apply set_invariants; [done| |done]. rewrite Htt.
      by apply (titled_get todos k).
  - done.
  - destruct (delete_invariants k todos Hwf Hk) as [W K].
    split; [done|]. split; [done|].
    destruct (decide (k ∈ JsMap.keys todos)) as [Hin|Hnin].
    + rewrite (delete_return _ _ Hin). by apply JsMap_delete_Forall.
    + by rewrite (delete_throw _ _ Hnin).
Qed.

Lemma serveAll_invariants (rs : list Request) (todos : JsMap.t Todo) :
  JsMap.wf todos ∧ keyed todos ∧ titled todos →
  JsMap.wf (serveAll rs todos) ∧ keyed (serveAll rs todos)
  ∧ titled (serveAll rs todos).
Proof.
  revert todos. induction rs as [|r rs IH]; intros todos H; simpl; [done|].
  by apply IH, serve_invariants.
Qed.

(** X15. Whatever requests the use cases serve, in whatever order and
    whether they return or throw, the store they build from the empty
    repository keeps every todo under its own id, holds no id twice, and
    holds no todo with a blank title. *)
Theorem use_cases_invariants (rs : list Request) :
  JsMap.wf (serveAll rs JsMap.empty) ∧
  keyed (serveAll rs JsMap.empty) ∧
  titled (serveAll rs JsMap.empty).
Proof.
  apply serveAll_invariants. split; [apply JsMap_wf_empty|].
  split; constructor.
Qed.

(** X16. In a store that the use cases have built from the empty repository,
    [ToggleTodoStatusUseCase.execute(id)] fails for one reason only, an id
    that is not stored: for a stored id it returns, the status flipped, and
    never throws [Error('Todo cannot be completed')]. *)
Theorem Toggle_fails_only_if_missing
    (rs : list Request) (now : Date) (k : JsString) :
  ((∃ e, (ToggleTodoStatusUseCase.execute now k (serveAll rs JsMap.empty)).1
         = Throw e)
   ↔ k ∉ JsMap.keys (serveAll rs JsMap.empty)) ∧
  (∀ t, JsMap.get k (serveAll rs JsMap.empty) = Some t →
     ∃ t', (ToggleTodoStatusUseCase.execute now k (serveAll rs JsMap.empty)).1
           = Return t' ∧
           status t' ≠ status t ∧ id t' = k ∧ title t' = title t ∧
           description t' = description t ∧ createdAt t' = createdAt t ∧
           updatedAt t' = now).
Proof.
  assert (Hinv : JsMap.wf (serveAll rs JsMap.empty) ∧
                 keyed (serveAll rs JsMap.empty) ∧
                 titled (serveAll rs JsMap.empty)).
  { apply serveAll_invariants. split; [apply JsMap_wf_empty|].
    split; constructor. }
  destruct Hinv as (Hwf & Hk & Hti).
  set (todos := serveAll rs JsMap.empty) in *.
  assert (Hfound : ∀ t, JsMap.get k todos = Some t →
    ∃ t', (ToggleTodoStatusUseCase.execute now k todos).1 = Return t' ∧
          status t' ≠ status t ∧ id t' = k ∧ title t' = title t ∧
          description t' = description t ∧ createdAt t' = createdAt t ∧
          updatedAt t' = now).
  { intros t Hget.
    rewrite (Toggle_flip now k t todos Hget (keyed_get _ _ _ Hk Hget)
               (titled_get _ _ _ Hti Hget)).
    eexists. split; [reflexivity|]. simpl.
    split; [by destruct (status t)|].
    split; [by apply (keyed_get todos)|]. done. }
  split; [|exact Hfound]. split.
  - intros [e He]. apply JsMap_get_None.
    destruct (JsMap.get k todos) as [t|] eqn:Hget; [|done].
    destruct (Hfound t eq_refl) as (t' & Ht' & _). congruence.
  - intros H. rewrite (Toggle_missing _ _ _ H). eauto.
Qed.

Lemma Toggle_fails_only_if_missing_witness :
  JsMap.get (js "todo_1")
    (serveAll [CreateTodo (js "todo_1") 5000 5001
                 (CreateTodoRequest.mk (js " Buy milk ") [])] JsMap.empty)
  = Some (mkTodo (js "todo_1") (js "Buy milk") [] PENDING 5000 5001) ∧
  ∃ t', (ToggleTodoStatusUseCase.execute 6000 (js "todo_1")
           (serveAll [CreateTodo (js "todo_1") 5000 5001
                        (CreateTodoRequest.mk (js " Buy milk ") [])]
                     JsMap.empty)).1 = Return t' ∧
        status t' ≠ PENDING.
Proof.
  split; [reflexivity|].
  destruct (proj2 (Toggle_fails_only_if_missing
    [CreateTodo (js "todo_1") 5000 5001
       (CreateTodoRequest.mk (js " Buy milk ") [])] 6000 (js "todo_1"))
    (mkTodo (js "todo_1") (js "Buy milk") [] PENDING 5000 5001) eq_refl)
    as (t' & Hrun & Hs & _).
  exists t'. split; [exact Hrun | exact Hs].
Defined.

(** ** More on the invokers *)

Section Invoker_more.
Variable kind : JsString.
Implicit Types (name : JsString) (x : JsValue) (m : gmap JsString JsValue).

(** X17. [invoke] never writes to the registry, and what it returns is
    sound: a value it returns is the value the Map holds under the name, is
    truthy, and [has] says [true] for the name. For a name for which [has]
    says [false] it throws the not-found error. *)
Theorem invoke_sound name m :
  (Invoker.invoke kind name m).2 = m ∧
  (∀ x, (Invoker.invoke kind name m).1 = Return x →
     m !! name = Some x ∧ toBoolean x = true ∧
     Invoker.has name m = (Return true, m)) ∧
  (Invoker.has name m = (Return false, m) →
     Invoker.invoke kind name m = (Throw (Invoker.notFound kind name), m)).
Proof.
  rewrite invoke_cases. unfold Invoker.has. run_method.
  destruct (m !! name) as [y|] eqn:E; simpl.
  - rewrite ?bool_decide_eq_true_2 by eauto.
    destruct (toBoolean y) eqn:T; simpl.
    + split; [done|]. split; [|done]. by intros x [= <-].
    + split; [done|]. split; done.
  - rewrite ?bool_decide_eq_false_2 by (by intros [? ?]).
    split; [done|]. split; done.
Qed.

(** X18. [register] writes one name only, and the last write wins:
    registering under [name] leaves what [invoke] and [has] give for every
    other name as it was, and two registrations under one name leave the
    registry as the second alone would. After [clear()] nothing is
    registered: [has] says [false] and [invoke] throws for every name. *)
Theorem register_clear_spec name j x y m :
  (name ≠ j →
     (Invoker.invoke kind j (Invoker.register name x m).2).1
     = (Invoker.invoke kind j m).1 ∧
     (Invoker.has j (Invoker.register name x m).2).1 = (Invoker.has j m).1) ∧
  (Invoker.register name x;; Invoker.register name y) m
  = Invoker.register name y m ∧
  (Invoker.clear;; Invoker.has name) m = (Return false, ∅) ∧
  (Invoker.clear;; Invoker.invoke kind name) m
  = (Throw (Invoker.notFound kind name), ∅).
Proof.
  split; [|split; [|split]].
  - intros Hne. rewrite !invoke_cases.
    unfold Invoker.has, Invoker.register. run_method.
    rewrite lookup_insert_ne by done. split; [|done].
    destruct (m !! j) as [z|]; [|done]. by destruct (toBoolean z).
  - change ((Invoker.register name x;; Invoker.register name y) m)
      with (Return (), <[name:=y]> (<[name:=x]> m)).
    unfold Invoker.register, assign. by rewrite insert_insert_eq.
  - change ((Invoker.clear;; Invoker.has name) m)
      with (Invoker.has name (∅ : gmap JsString JsValue)).
    unfold Invoker.has. run_method.
    rewrite lookup_empty, bool_decide_eq_false_2; [done|]. by intros [? ?].
  - change ((Invoker.clear;; Invoker.invoke kind name) m)
      with (Invoker.invoke kind name (∅ : gmap JsString JsValue)).
    by rewrite invoke_cases, lookup_empty.
Qed.
End Invoker_more.

Lemma invoke_sound_witness :
  (Invoker.invoke (js "Service") (js "todoService")
     {[ js "todoService" := JsObject 1 ]}).1 = Return (JsObject 1) ∧
  ({[ js "todoService" := JsObject 1 ]} : gmap JsString JsValue)
    !! js "todoService" = Some (JsObject 1) ∧
  (Invoker.has (js "missing") (∅ : gmap JsString JsValue) = (Return false, ∅) ∧
   Invoker.invoke (js "Service") (js "missing") ∅
   = (Throw (Invoker.notFound (js "Service") (js "missing")), ∅)).
Proof.
  split; [reflexivity|]. split.
  - exact (proj1 (proj1 (proj2
      (invoke_sound (js "Service") (js "todoService")
         {[ js "todoService" := JsObject 1 ]})) (JsObject 1) eq_refl)).
  - split; [reflexivity|].
    exact (proj2 (proj2 (invoke_sound (js "Service") (js "missing") ∅))
             eq_refl).
Defined.

Lemma register_clear_spec_witness :
  js "todoService" ≠ js "other" ∧
  (Invoker.invoke (js "Service") (js "other")
     (Invoker.register (js "todoService") (JsObject 1)
        {[ js "other" := JsObject 2 ]}).2).1
  = Return (JsObject 2).
Proof.
  split; [discriminate|].
  rewrite (proj1 (proj1 (register_clear_spec (js "Service") (js "todoService")
    (js "other") (JsObject 1) JsNull {[ js "other" := JsObject 2 ]})
    ltac:(discriminate))).
  reflexivity.
Defined.

(** ** The provider and the factory *)

Import AppDependencyProvider.

Lemma initialize_done (w : World) :
  initialized w = true → initialize w = (Return (), w).
Proof. intros H. unfold initialize. run_method. by rewrite H. Qed.

Lemma initialize_fresh (w : World) :
  initialized w = false →
  initialize w
  = (Return (),
     mkWorld (heap w ++ [InMemoryTodoRepositoryObj JsMap.empty;
                         TodoServiceObj (length (heap w))])
             (<[js "todoRepository" := JsObject (length (heap w))]>
                (repositories w))
             (<[js "todoService" := JsObject (S (length (heap w)))]>
                (services w))
             (logics w) true (factoryInstance w)).
Proof.
  intros H. unfold initialize. run_method. rewrite H.
  destruct w as [h r s l i f]. unfold new, on, set_initialized. simpl.
  rewrite <-app_assoc, length_app. simpl.
  by rewrite Nat.add_1_r.
Qed.

Lemma reset_run (w : World) :
  reset w = (Return (), mkWorld (heap w) ∅ ∅ (logics w) false (factoryInstance w)).
Proof. by destruct w. Qed.

(** X19. [AppDependencyProvider.initialize()] acts once. With the flag set it
    does nothing at all, so that calling it twice is calling it once; with
    the flag clear it makes one repository and one service that holds that
    repository, registers them as 'todoRepository' and 'todoService', keeps
    every other registration, leaves the logic invoker alone and sets the
    flag. *)
Theorem initialize_spec (w : World) :
  (initialized w = true → initialize w = (Return (), w)) ∧
  (initialize;; initialize) w = initialize w ∧
  (initialized w = false →
     initialize w
     = (Return (),
        mkWorld (heap w ++ [InMemoryTodoRepositoryObj JsMap.empty;
                            TodoServiceObj (length (heap w))])
                (<[js "todoRepository" := JsObject (length (heap w))]>
                   (repositories w))
                (<[js "todoService" := JsObject (S (length (heap w)))]>
                   (services w))
                (logics w) true (factoryInstance w))).
Proof.
  split; [apply initialize_done|]. split; [|apply initialize_fresh].
  change ((initialize;; initialize) w)
    with (match initialize w with
          | (Return _, w') => initialize w'
          | (Throw e, w') => (Throw e, w')
          end).
  destruct (initialized w) eqn:H.
  - rewrite (initialize_done _ H). by apply initialize_done.
  - rewrite (initialize_fresh _ H). by apply initialize_done.
Qed.

Lemma initialize_spec_witness :
  initialized usedWorld = true ∧ initialize usedWorld = (Return (), usedWorld) ∧
  initialized (mkWorld [] ∅ ∅ ∅ false false) = false ∧
  initialize (mkWorld [] ∅ ∅ ∅ false false)
  = (Return (),
     mkWorld [InMemoryTodoRepositoryObj []; TodoServiceObj 0]
             {[ js "todoRepository" := JsObject 0 ]}
             {[ js "todoService" := JsObject 1 ]} ∅ true false).
Proof.
  split; [reflexivity|]. split.
  - exact (proj1 (initialize_spec usedWorld) eq_refl).
  - split; [reflexivity|].
    exact (proj2 (proj2 (initialize_spec (mkWorld [] ∅ ∅ ∅ false false)))
             eq_refl).
Defined.

(** X20. After [AppDependencyProvider.reset()], whatever was registered or
    stored before, [getServiceInvoker().invoke('todoService')] and
    [getRepositoryInvoker().invoke('todoRepository')] both return: the first
    a new service, the second a new and empty repository, the very one the
    service holds. The objects made before the reset stay on the heap; the
    service invoker and the repository invoker hold none of them any more.
    The logic invoker is not cleared by this reset: it holds what it held. *)
Theorem reset_then_invoke (w : World) :
  ∃ w',
    (reset;; i ← getServiceInvoker; invokeOn i (js "todoService")) w
    = (Return (JsObject (S (length (heap w)))), w') ∧
    (reset;; i ← getRepositoryInvoker; invokeOn i (js "todoRepository")) w
    = (Return (JsObject (length (heap w))), w') ∧
    heap w' !! S (length (heap w))
    = Some (TodoServiceObj (length (heap w))) ∧
    heap w' !! length (heap w) = Some (InMemoryTodoRepositoryObj JsMap.empty) ∧
    (∀ r o, heap w !! r = Some o → heap w' !! r = Some o) ∧
    services w' = {[ js "todoService" := JsObject (S (length (heap w))) ]} ∧
    repositories w'
    = {[ js "todoRepository" := JsObject (length (heap w)) ]} ∧
    (∀ name r, (r < length (heap w))%nat →
       registry TheServiceInvoker w' !! name ≠ Some (JsObject r) ∧
       registry TheRepositoryInvoker w' !! name ≠ Some (JsObject r)) ∧
    registry TheLogicInvoker w' = registry TheLogicInvoker w.
Proof.
  eexists. split; [|split].
  - change ((reset;; i ← getServiceInvoker; invokeOn i (js "todoService")) w)
      with (match reset w with
            | (Return _, w1) =>
                match initialize w1 with
                | (Return _, w2) => invokeOn TheServiceInvoker (js "todoService") w2
                | (Throw e, w2) => (Throw e, w2)
                end
            | (Throw e, w1) => (Throw e, w1)
            end).
    rewrite reset_run, initialize_fresh by done. simpl.
    unfold on, ServiceInvoker.invoke. simpl.
    rewrite invoke_cases, lookup_insert_eq. simpl. reflexivity.
  - change ((reset;; i ← getRepositoryInvoker;
             invokeOn i (js "todoRepository")) w)
      with (match reset w with
            | (Return _, w1) =>
                match initialize w1 with
                | (Return _, w2) =>
                    invokeOn TheRepositoryInvoker (js "todoRepository") w2
                | (Throw e, w2) => (Throw e, w2)
                end
            | (Throw e, w1) => (Throw e, w1)
            end).
    rewrite reset_run, initialize_fresh by done. simpl.
    unfold on, RepositoryInvoker.invoke. simpl.
    rewrite invoke_cases, lookup_insert_eq. simpl. reflexivity.
  - simpl. split; [|split; [|split; [|split; [|split; [|split]]]]].
    + rewrite lookup_app_r by lia.
      by replace (S (length (heap w)) - length (heap w))%nat with 1%nat by lia.
    + rewrite lookup_app_r by lia. by rewrite Nat.sub_diag.
    + intros r o H. by apply lookup_app_l_Some.
    + done.
    + done.
    + intros name r Hr.
      split; intros [[_ H]|[_ H]]%lookup_insert_Some;
        solve [ injection H; lia | by rewrite lookup_empty in H ].
    + done.
Qed.

Lemma bind_run {S A B} (m : Method S A) (k : A → Method S B) (s : S) :
  (m ≫= k) s
  = match m s with
    | (Return a, s') => k a s'
    | (Throw e, s') => (Throw e, s')
    end.
Proof. reflexivity. Qed.

Lemma invokeOn_empty (i : InvokerRef) (name : JsString) (w : World) :
  registry i w = ∅ → ∃ e, invokeOn i name w = (Throw e, w).
Proof.
  intros H.
  destruct i; unfold invokeOn, on, RepositoryInvoker.invoke,
    ServiceInvoker.invoke, LogicInvoker.invoke;
    rewrite invoke_cases, H, lookup_empty; simpl in *; rewrite <-H;
    destruct w; eauto.
Qed.

(** X21. The flag decides, not the registries. When an invoker is cleared
    with its own [clear()] while the provider's flag is set,
    [getServiceInvoker()] and [getRepositoryInvoker()] register nothing
    again, and [invoke] throws for every name, 'todoService' and
    'todoRepository' included, until [reset()] is called. *)
Theorem clear_is_not_reset (w : World) (name : JsString) :
  initialized w = true →
  (on TheServiceInvoker ServiceInvoker.clear;;
   i ← getServiceInvoker; invokeOn i name) w
  = (Throw (Invoker.notFound (js "Service") name), set_services ∅ w) ∧
  (on TheRepositoryInvoker RepositoryInvoker.clear;;
   i ← getRepositoryInvoker; invokeOn i name) w
  = (Throw (Invoker.notFound (js "Repository") name), set_repositories ∅ w).
Proof.
  intros H. split.
  - rewrite bind_run.
    change (on TheServiceInvoker ServiceInvoker.clear w)
      with (Return (), set_services ∅ w).
    cbv beta iota. rewrite bind_run. unfold getServiceInvoker.
    rewrite bind_run, initialize_done by done.
    unfold invokeOn, on, ServiceInvoker.invoke. simpl.
    rewrite invoke_cases, lookup_empty. by destruct w.
  - rewrite bind_run.
    change (on TheRepositoryInvoker RepositoryInvoker.clear w)
      with (Return (), set_repositories ∅ w).
    cbv beta iota. rewrite bind_run. unfold getRepositoryInvoker.
    rewrite bind_run, initialize_done by done.
    unfold invokeOn, on, RepositoryInvoker.invoke. simpl.
    rewrite invoke_cases, lookup_empty. by destruct w.
Qed.

Lemma clear_is_not_reset_witness :
  initialized usedWorld = true ∧
  (on TheServiceInvoker ServiceInvoker.clear;;
   i ← getServiceInvoker; invokeOn i (js "todoService")) usedWorld
  = (Throw (mkError (js "Service 'todoService' not found. Did you register it?")),
     set_services ∅ usedWorld).
Proof.
  split; [reflexivity|].
  exact (proj1 (clear_is_not_reset usedWorld (js "todoService") eq_refl)).
Defined.

Lemma getInstance_existing (w : World) :
  factoryInstance w = true → AppDependencyFactory.getInstance w = (Return (), w).
Proof.
  intros H. unfold AppDependencyFactory.getInstance. run_method. by rewrite H.
Qed.

Lemma getInstance_first (w : World) :
  factoryInstance w = false →
  AppDependencyFactory.getInstance w
  = match initialize w with
    | (Return _, w') => (Return (), set_factoryInstance true w')
    | (Throw e, w') => (Throw e, w')
    end.
Proof.
  intros H. unfold AppDependencyFactory.getInstance. run_method. by rewrite H.
Qed.

Lemma factory_reset_run (w : World) :
  AppDependencyFactory.reset w
  = (Return (), mkWorld (heap w) ∅ ∅ ∅ false (factoryInstance w)).
Proof. by destruct w. Qed.

(** X22. [AppDependencyFactory.reset()] empties the three invokers and
    clears the provider's flag, and touches neither the objects made nor the
    factory's own instance: afterwards [invoke] throws for every name on
    every invoker. The next access through the factory,
    [getInstance().getServiceInvoker()], registers a new service and a new
    repository again, whether or not the factory's instance existed. *)
Theorem factory_reset_spec (w : World) (i : InvokerRef) (name : JsString) :
  AppDependencyFactory.reset w
  = (Return (), mkWorld (heap w) ∅ ∅ ∅ false (factoryInstance w)) ∧
  (∃ e, (AppDependencyFactory.reset;; invokeOn i name) w
        = (Throw e, mkWorld (heap w) ∅ ∅ ∅ false (factoryInstance w))) ∧
  (AppDependencyFactory.reset;; AppDependencyFactory.getInstance;;
   j ← AppDependencyFactory.getServiceInvoker;
   invokeOn j (js "todoService")) w
  = (Return (JsObject (S (length (heap w)))),
     mkWorld (heap w ++ [InMemoryTodoRepositoryObj JsMap.empty;
                         TodoServiceObj (length (heap w))])
             {[ js "todoRepository" := JsObject (length (heap w)) ]}
             {[ js "todoService" := JsObject (S (length (heap w))) ]}
             ∅ true true).
Proof.
  split; [apply factory_reset_run|]. split.
  - rewrite bind_run, factory_reset_run.
    apply invokeOn_empty. by destruct i.
  - rewrite bind_run, factory_reset_run, bind_run.
    unfold AppDependencyFactory.getServiceInvoker, getServiceInvoker.
    destruct (factoryInstance w) eqn:F.
    + rewrite getInstance_existing by done.
      rewrite !bind_run, initialize_fresh by done. simpl.
      unfold on, ServiceInvoker.invoke. simpl.
      by rewrite invoke_cases, lookup_insert_eq.
    + rewrite getInstance_first, initialize_fresh by done. simpl.
      rewrite !bind_run, initialize_done by done. simpl.
      unfold on, ServiceInvoker.invoke. simpl.
      by rewrite invoke_cases, lookup_insert_eq.
Qed.

(** ** The todo store of the user interface *)

Import TodoStore.

(** X23. [updateTodo(todo)] of the store replaces, in place, every todo that
    has the id of [todo]: the ids held and their order stay the same, todos
    with another id are kept as they are, and doing it twice is doing it
    once. When no todo has that id the list stays as it is, and no error is
    raised, unlike the repository's [update]. The action clears [error]
    and keeps [isLoading]. *)
Theorem updateTodo_spec (todo : Todo) (s : State) :
  id <$> todos (updateTodo todo s) = id <$> todos s ∧
  (∀ i t, todos s !! i = Some t → id t ≠ id todo →
          todos (updateTodo todo s) !! i = Some t) ∧
  (∀ i t, todos s !! i = Some t → id t = id todo →
          todos (updateTodo todo s) !! i = Some todo) ∧
  (Forall (λ t, id t ≠ id todo) (todos s) →
     todos (updateTodo todo s) = todos s) ∧
  updateTodo todo (updateTodo todo s) = updateTodo todo s ∧
  error (updateTodo todo s) = None ∧
  isLoading (updateTodo todo s) = isLoading s.
Proof.
  unfold updateTodo. simpl.
  split; [|split; [|split; [|split; [|split; [|split; done]]]]].
  - rewrite <-list_fmap_compose. apply list_fmap_ext. intros i t _. simpl.
    destruct (decide (id t = id todo)); congruence.
  - intros i t Hi Hne. by rewrite list_lookup_fmap, Hi; simpl; rewrite decide_False.
  - intros i t Hi He. by rewrite list_lookup_fmap, Hi; simpl; rewrite decide_True.
  - induction 1 as [|t l Ht _ IH]; [done|].
    rewrite fmap_cons, IH. by rewrite decide_False.
  - f_equal. rewrite <-list_fmap_compose. apply list_fmap_ext. intros i t _.
    simpl. destruct (decide (id t = id todo)); [by rewrite decide_True|].
    by rewrite decide_False.
Qed.

Lemma updateTodo_spec_witness :
  todos (mk [newer; older] false None) !! 1%nat = Some older ∧
  id older = id (set_status COMPLETED older) ∧
  todos (updateTodo (set_status COMPLETED older) (mk [newer; older] false None))
  = [newer; set_status COMPLETED older] ∧
  Forall (λ t, id t ≠ id payRent) (todos (mk [newer; older] false None)) ∧
  todos (updateTodo payRent (mk [newer; older] false None)) = [newer; older].
Proof.
  assert (H : Forall (λ t, id t ≠ id payRent)
                (todos (mk [newer; older] false None))).
  { repeat constructor; discriminate. }
  split; [reflexivity|]. split; [reflexivity|]. split; [reflexivity|].
  split; [exact H|].
  exact (proj1 (proj2 (proj2 (proj2
    (updateTodo_spec payRent (mk [newer; older] false None)))) ) H).
Defined.

(** X24. [removeTodo(id)] of the store gives the old list filtered: the todos
    whose id is not [id], each as often and in the order the old list has
    them, so that the new list is a sublist of the old one and removing
    from two lists put end to end is removing from each. Doing it twice is
    doing it once; with no such todo the list stays as it is. It undoes an
    [addTodo]: adding a todo whose id no todo of the list has, then removing
    that id, gives the list back. [addTodo] puts the new todo first. *)
Theorem removeTodo_spec (todo : Todo) (k : JsString) (s : State) :
  todos (removeTodo k s) = filter (λ t, id t ≠ k) (todos s) ∧
  todos (removeTodo k s) `sublist_of` todos s ∧
  (∀ l1 l2, todos s = l1 ++ l2 →
     todos (removeTodo k s)
     = todos (removeTodo k (mk l1 (isLoading s) (error s)))
       ++ todos (removeTodo k (mk l2 (isLoading s) (error s)))) ∧
  (∀ t, id t ≠ k →
     length (filter (λ u, u = t) (todos (removeTodo k s)))
     = length (filter (λ u, u = t) (todos s))) ∧
  Forall (λ t, id t ≠ k) (todos (removeTodo k s)) ∧
  (∀ t, t ∈ todos (removeTodo k s) ↔ t ∈ todos s ∧ id t ≠ k) ∧
  removeTodo k (removeTodo k s) = removeTodo k s ∧
  (Forall (λ t, id t ≠ k) (todos s) → todos (removeTodo k s) = todos s) ∧
  todos (addTodo todo s) = todo :: todos s ∧
  (Forall (λ t, id t ≠ id todo) (todos s) →
     todos (removeTodo (id todo) (addTodo todo s)) = todos s).
Proof.
  assert (Hid : ∀ l : list Todo,
    Forall (λ t, id t ≠ k) l → filter (λ t, id t ≠ k) l = l).
  { induction 1 as [|t l Ht _ IH]; [done|].
    by rewrite filter_cons, decide_True, IH. }
  assert (Hall : ∀ l : list Todo,
    Forall (λ t, id t ≠ k) (filter (λ t, id t ≠ k) l)).
  { intros l. apply Forall_forall. by intros t [? _]%list_elem_of_filter. }
  unfold removeTodo, addTodo. simpl.
  split; [done|]. split; [apply sublist_filter|].
  split; [by intros l1 l2 ->; rewrite filter_app|]. split.
  { intros t Ht. induction (todos s) as [|u l IH]; [done|].
    rewrite !filter_cons. destruct (decide (id u ≠ k)) as [Hu|Hu].
    - rewrite filter_cons. destruct (decide (u = t)); simpl; by rewrite IH.
    - rewrite decide_False; [done|]. intros ->. by apply Hu. }
  split; [apply Hall|]. split; [|split; [|split; [apply Hid|split; [done|]]]].
  - intros t. rewrite list_elem_of_filter. tauto.
  - f_equal. apply Hid, Hall.
  - intros H. rewrite filter_cons, decide_False by (intros E; by apply E).
    clear Hid Hall. induction H as [|t l Ht _ IH]; [done|].
    by rewrite filter_cons, decide_True, IH.
Qed.

Lemma removeTodo_spec_witness :
  (Forall (λ t, id t ≠ id payRent) (todos (mk [newer; older] false None)) ∧
   todos (removeTodo (id payRent)
            (addTodo payRent (mk [newer; older] false None)))
   = [newer; older]) ∧
  todos (removeTodo (id payRent) (mk [newer; payRent; older; newer] false None))
  = [newer; older; newer].
Proof.
  assert (H : Forall (λ t, id t ≠ id payRent)
                (todos (mk [newer; older] false None))).
  { repeat constructor; discriminate. }
  split; [split; [exact H|]|].
  - exact (proj2 (proj2 (proj2 (proj2 (proj2 (proj2 (proj2 (proj2 (proj2
      (removeTodo_spec payRent [] (mk [newer; older] false None))))))))))
      H).
  - exact (proj1 (removeTodo_spec payRent (id payRent)
                    (mk [newer; payRent; older; newer] false None))).
Defined.

(** ** The store as a mirror of the repository *)

Lemma sort_insert_fmap (f : Todo → Todo) (x : Todo) (l : list Todo) :
  createdAt (f x) = createdAt x →
  Forall (λ t, createdAt (f t) = createdAt t) l →
  sort_insert byCreatedAtDesc (f x) (f <$> l)
  = f <$> sort_insert byCreatedAtDesc x l.
Proof.
  intros Hx. induction 1 as [|y l Hy _ IH]; [done|].
  rewrite fmap_cons. simpl.
  replace (byCreatedAtDesc (f x) (f y)) with (byCreatedAtDesc x y)
    by (unfold byCreatedAtDesc; by rewrite Hx, Hy).
  destruct (default 0 (byCreatedAtDesc x y) <=? 0); [done|].
  by rewrite fmap_cons, IH.
Qed.

Lemma sort_fmap (f : Todo → Todo) (l : list Todo) :
  Forall (λ t, createdAt (f t) = createdAt t) l →
  sort byCreatedAtDesc (f <$> l) = f <$> sort byCreatedAtDesc l.
Proof.
  induction 1 as [|x l Hx Hl IH]; [done|].
  rewrite fmap_cons. simpl. rewrite IH. apply sort_insert_fmap; [done|].
  by rewrite sort_Permutation.
Qed.

Lemma newerFirst_total (x y : Todo) :
  validCreatedAt x → validCreatedAt y →
  ¬ (createdAt x < createdAt y)%date → newerFirst x y.
Proof.
  intros [tx Hx]%validCreatedAt_time [ty Hy]%validCreatedAt_time.
  unfold newerFirst, Date_lt, Date_le. rewrite Hx, Hy. simpl. lia.
Qed.

Lemma newerFirst_trans (x y z : Todo) :
  newerFirst x y → newerFirst y z → newerFirst x z.
Proof.
  unfold newerFirst, Date_le.
  destruct (getTime (createdAt x)), (getTime (createdAt y)),
    (getTime (createdAt z)); try tauto. lia.
Qed.

Lemma sort_insert_filter (P : Todo → Prop) `{!∀ t, Decision (P t)}
    (x : Todo) (l : list Todo) :
  validCreatedAt x → Forall validCreatedAt l →
  StronglySorted newerFirst l →
  filter P (sort_insert byCreatedAtDesc x l)
  = if decide (P x) then sort_insert byCreatedAtDesc x (filter P l)
    else filter P l.
Proof.
  intros Hvx Hv Hl. revert Hv.
  induction Hl as [|y l Hl IH Hy]; intros Hv; simpl.
  - rewrite filter_cons, filter_nil. by destruct (decide (P x)).
  - apply Forall_cons in Hv as [Hvy Hv].
    destruct (default 0 (byCreatedAtDesc x y) <=? 0) eqn:E.
    + rewrite (filter_cons _ x).
      destruct (decide (P x)) as [Hx|Hx]; [|done].
      rewrite sort_insert_newest; [done|].
      assert (Hxy : newerFirst x y).
      { apply newerFirst_total; [done|done|]. intros Hlt.
        apply byCreatedAtDesc_positive in Hlt. congruence. }
      apply Forall_forall. intros z [_ Hz]%list_elem_of_filter.
      apply elem_of_cons in Hz as [->|Hz]; [done|].
      rewrite Forall_forall in Hy. by apply (newerFirst_trans x y z), Hy.
    + rewrite (filter_cons _ y), IH, (filter_cons _ y) by done.
      destruct (decide (P x)), (decide (P y)); try done.
      cbn [sort_insert]. by rewrite E.
Qed.

Lemma sort_filter (P : Todo → Prop) `{!∀ t, Decision (P t)} (l : list Todo) :
  Forall validCreatedAt l →
  filter P (sort byCreatedAtDesc l) = sort byCreatedAtDesc (filter P l).
Proof.
  induction 1 as [|x l Hx Hl IH]; [done|].
  simpl. rewrite sort_insert_filter.
  - rewrite filter_cons, IH. by destruct (decide (P x)).
  - done.
  - by rewrite sort_Permutation.
  - by apply sort_newerFirst.
Qed.

Lemma sort_snoc_newest (x : Todo) (l : list Todo) :
  Forall (λ t, (createdAt t < createdAt x)%date) l →
  sort byCreatedAtDesc (l ++ [x]) = x :: sort byCreatedAtDesc l.
Proof.
  induction 1 as [|y l Hy _ IH]; [done|].
  simpl. rewrite IH. simpl.
  by rewrite (proj2 (byCreatedAtDesc_positive y x) Hy).
Qed.

Lemma JsMap_entry_get {V} (m : JsMap.t V) (k : JsString) (v : V) :
  JsMap.wf m → (k, v) ∈ m → JsMap.get k m = Some v.
Proof.
  unfold JsMap.wf, JsMap.keys. induction m as [|[k' v'] m IH]; simpl.
  - by intros _ ?%not_elem_of_nil.
  - rewrite NoDup_cons. intros [Hk' Hm] [[= -> ->]|Hin]%elem_of_cons.
    + by rewrite decide_True.
    + rewrite decide_False; [by apply IH|]. intros ->. apply Hk'.
      apply list_elem_of_fmap. by exists (k', v).
Qed.

Lemma values_set_keyed (repo : JsMap.t Todo) (todo old : Todo) :
  JsMap.wf repo → keyed repo → JsMap.get (id todo) repo = Some old →
  JsMap.values (JsMap.set (id todo) todo repo)
  = (λ t, if decide (id t = id todo) then todo else t) <$> JsMap.values repo.
Proof.
  unfold JsMap.wf, JsMap.keys, keyed, JsMap.values.
  induction repo as [|[k t] repo IH]; simpl; [done|].
  rewrite NoDup_cons, Forall_cons. simpl. intros [Hk Hwf] [Hkt Hkeyed] Hget.
  destruct (decide (id todo = k)) as [E|E].
  - rewrite decide_True by congruence. simpl. f_equal.
    clear IH Hget. induction repo as [|[k' t'] repo IH]; [done|].
    apply Forall_cons in Hkeyed as [Hk' Hkeyed]. simpl in *.
    apply NoDup_cons in Hwf as [_ Hwf].
    rewrite not_elem_of_cons in Hk. destruct Hk as [Hne Hk].
    rewrite decide_False by congruence. f_equal. by apply IH.
  - rewrite decide_False by congruence. simpl. f_equal. by apply IH.
Qed.

Lemma values_delete_keyed (repo : JsMap.t Todo) (k : JsString) :
  keyed repo →
  JsMap.values (JsMap.delete k repo) = filter (λ t, id t ≠ k) (JsMap.values repo).
Proof.
  unfold keyed, JsMap.values, JsMap.delete.
  induction 1 as [|[j t] repo Hj _ IH]; [done|].
  simpl in Hj. rewrite fmap_cons, !filter_cons. simpl. rewrite Hj.
  destruct (decide (j ≠ k)); [by rewrite fmap_cons, IH | done].
Qed.

Lemma findAll_result (repo : JsMap.t Todo) :
  (findAll repo).1 = Return (sort byCreatedAtDesc (JsMap.values repo)).
Proof. reflexivity. Qed.

(** X25. The list of the store stays the mirror of [findAll()]. Let the
    store hold what [findAll()] returns, in a repository that keeps every
    todo under its own id and holds valid [createdAt] dates only. Then
    after [update(todo)] and [updateTodo(todo)],
    for a stored id and a todo that keeps the [createdAt] of the stored one,
    after [delete(id)] and [removeTodo(id)], and after [create(todo)] and
    [addTodo(todo)], for a new id and a todo created later than every stored
    one, the store again holds what [findAll()] returns. *)
Theorem store_mirrors_repository
    (repo : JsMap.t Todo) (s : State) (todo old : Todo) (k : JsString) :
  JsMap.wf repo → keyed repo →
  Forall validCreatedAt (JsMap.values repo) →
  (findAll repo).1 = Return (todos s) →
  (JsMap.get (id todo) repo = Some old → createdAt todo = createdAt old →
     (findAll (update todo repo).2).1 = Return (todos (updateTodo todo s))) ∧
  (findAll (delete k repo).2).1 = Return (todos (removeTodo k s)) ∧
  (id todo ∉ JsMap.keys repo →
   Forall (λ t, (createdAt t < createdAt todo)%date) (JsMap.values repo) →
     (findAll (create todo repo).2).1 = Return (todos (addTodo todo s))).
Proof.
  intros Hwf Hk Hv. rewrite findAll_result. intros [= Hs].
  split; [|split].
  - intros Hget Hc.
    rewrite update_return by (apply JsMap_get_Some; eauto).
    rewrite findAll_result. simpl. rewrite <-Hs. f_equal.
    rewrite (values_set_keyed _ _ _ Hwf Hk Hget). apply sort_fmap.
    apply Forall_forall. intros t Ht.
    destruct (decide (id t = id todo)) as [E|E]; [|done].
    rewrite Hc. f_equal.
    apply list_elem_of_fmap in Ht as ([j t'] & -> & Hin). simpl in *.
    assert (Hj : id t' = j).
    { unfold keyed in Hk. rewrite Forall_forall in Hk. exact (Hk _ Hin). }
    subst j. apply (JsMap_entry_get _ _ _ Hwf) in Hin.
    rewrite E, Hget in Hin. by injection Hin.
  - assert (Hd : (delete k repo).2 = JsMap.delete k repo).
    { destruct (decide (k ∈ JsMap.keys repo)) as [Hin|Hnin].
      - by rewrite (delete_return _ _ Hin).
      - by rewrite (delete_throw _ _ Hnin), JsMap_delete_absent. }
    rewrite Hd, findAll_result. simpl. rewrite <-Hs. f_equal.
    by rewrite (values_delete_keyed _ _ Hk), sort_filter.
  - intros Hnew Hnewest. rewrite create_run, findAll_result. simpl.
    rewrite <-Hs. f_equal. rewrite (JsMap_set_absent _ _ _ Hnew).
    unfold JsMap.values in *. rewrite fmap_app. simpl.
    by apply sort_snoc_newest.
Qed.

Lemma store_mirrors_repository_witness :
  JsMap.wf twoTodos ∧ keyed twoTodos ∧
  Forall validCreatedAt (JsMap.values twoTodos) ∧
  (findAll twoTodos).1 = Return (todos (mk [newer; older] false None)) ∧
  (JsMap.get (id (set_status COMPLETED older)) twoTodos = Some older ∧
   createdAt (set_status COMPLETED older) = createdAt older ∧
   (findAll (update (set_status COMPLETED older) twoTodos).2).1
   = Return [newer; set_status COMPLETED older]) ∧
  (findAll (delete (js "b") twoTodos).2).1 = Return [older] ∧
  ((id farFuture ∉ JsMap.keys twoTodos) ∧
   Forall (λ t, (createdAt t < createdAt farFuture)%date)
          (JsMap.values twoTodos) ∧
   (findAll (create farFuture twoTodos).2).1
   = Return [farFuture; newer; older]).
Proof.
  assert (Hwf : JsMap.wf twoTodos).
  { apply NoDup_cons. split.
    - intros H. apply elem_of_cons in H as [H|H]; [discriminate H|].
      by apply not_elem_of_nil in H.
    - apply NoDup_singleton. }
  assert (Hk : keyed twoTodos) by (repeat constructor).
  assert (Hnew : id farFuture ∉ JsMap.keys twoTodos).
  { intros H. repeat (apply elem_of_cons in H as [H|H]; [discriminate H|]).
    by apply not_elem_of_nil in H. }
  assert (Hlt : Forall (λ t, (createdAt t < createdAt farFuture)%date)
                  (JsMap.values twoTodos)).
  { repeat constructor. }
  assert (Hv : Forall validCreatedAt (JsMap.values twoTodos)).
  { repeat constructor; discriminate. }
  split; [exact Hwf|]. split; [exact Hk|]. split; [exact Hv|].
  split; [reflexivity|]. split; [|split].
  - split; [reflexivity|]. split; [reflexivity|].
    exact (proj1 (store_mirrors_repository twoTodos
      (mk [newer; older] false None) (set_status COMPLETED older) older []
      Hwf Hk Hv eq_refl) eq_refl eq_refl).
  - exact (proj1 (proj2 (store_mirrors_repository twoTodos
      (mk [newer; older] false None) older older (js "b") Hwf Hk Hv eq_refl))).
  - split; [exact Hnew|]. split; [exact Hlt|].
    exact (proj2 (proj2 (store_mirrors_repository twoTodos
      (mk [newer; older] false None) farFuture older [] Hwf Hk Hv eq_refl))
      Hnew Hlt).
Defined.

(** X26. Where the mirror breaks. In a repository that holds valid
    [createdAt] dates only, when the new todo is created at the very instant
    of a todo already stored, [addTodo] shows it first while [findAll()],
    being stable, lists it after that todo: the list of the store then
    differs from what [findAll()] returns, until the todos are loaded
    again. *)
Theorem store_add_tie
    (repo : JsMap.t Todo) (s : State) (todo stored : Todo) :
  keyed repo →
  Forall validCreatedAt (JsMap.values repo) →
  (findAll repo).1 = Return (todos s) →
  id todo ∉ JsMap.keys repo →
  stored ∈ JsMap.values repo → createdAt stored = createdAt todo →
  (findAll (create todo repo).2).1 ≠ Return (todos (addTodo todo s)).
Proof.
  intros Hk _. rewrite findAll_result. intros [= Hs] Hnew Hin Hc.
  rewrite create_run, findAll_result. unfold addTodo. cbn [snd todos].
  rewrite <-Hs, (JsMap_set_absent _ _ _ Hnew).
  replace (JsMap.values (repo ++ [(id todo, todo)]))
    with (JsMap.values repo ++ [todo])
    by (unfold JsMap.values; by rewrite fmap_app).
  intros [= Heq].
  apply (f_equal (filter (λ t, createdAt t = createdAt todo))) in Heq.
  rewrite (sort_instant (createdAt todo)), filter_app, !filter_cons in Heq.
  rewrite filter_nil, (sort_instant (createdAt todo)) in Heq.
  rewrite !decide_True in Heq by done.
  assert (Hst : stored ∈ filter (λ t, createdAt t = createdAt todo)
                           (JsMap.values repo)).
  { by apply list_elem_of_filter. }
  destruct (filter (λ t, createdAt t = createdAt todo) (JsMap.values repo))
    as [|f F] eqn:EF; [by apply not_elem_of_nil in Hst|].
  simpl in Heq. injection Heq as Hf _.
  assert (Hfin : f ∈ JsMap.values repo).
  { assert (H : f ∈ f :: F) by apply list_elem_of_here.
    rewrite <-EF in H. by apply list_elem_of_filter in H as [_ ?]. }
  apply Hnew. rewrite Hf in Hfin.
  apply list_elem_of_fmap in Hfin as ([j t] & -> & Ht).
  unfold keyed in Hk. rewrite Forall_forall in Hk.
  pose proof (Hk _ Ht) as Hj. simpl in *. rewrite Hj.
  apply list_elem_of_fmap. by exists (j, t).
Qed.

Lemma store_add_tie_witness :
  keyed twoTodos ∧
  Forall validCreatedAt (JsMap.values twoTodos) ∧
  (findAll twoTodos).1 = Return (todos (mk [newer; older] false None)) ∧
  (id (mkTodo (js "c") (js "C") [] PENDING 2000 2000) ∉ JsMap.keys twoTodos) ∧
  newer ∈ JsMap.values twoTodos ∧
  (findAll (create (mkTodo (js "c") (js "C") [] PENDING 2000 2000) twoTodos).2).1
  ≠ Return (todos (addTodo (mkTodo (js "c") (js "C") [] PENDING 2000 2000)
                           (mk [newer; older] false None))).
Proof.
  assert (Hk : keyed twoTodos) by (repeat constructor).
  assert (Hnew : id (mkTodo (js "c") (js "C") [] PENDING 2000 2000)
                 ∉ JsMap.keys twoTodos).
  { intros H. repeat (apply elem_of_cons in H as [H|H]; [discriminate H|]).
    by apply not_elem_of_nil in H. }
  assert (Hin : newer ∈ JsMap.values twoTodos).
  { apply list_elem_of_further, list_elem_of_here. }
  assert (Hv : Forall validCreatedAt (JsMap.values twoTodos)).
  { repeat constructor; discriminate. }
  split; [exact Hk|]. split; [exact Hv|]. split; [reflexivity|].
  split; [exact Hnew|]. split; [exact Hin|].
  exact (store_add_tie twoTodos (mk [newer; older] false None)
           (mkTodo (js "c") (js "C") [] PENDING 2000 2000) newer
           Hk Hv eq_refl Hnew Hin eq_refl).
Defined.

Lemma reset_then_invoke_witness :
  ∃ w',
    (reset;; i ← getServiceInvoker; invokeOn i (js "todoService")) usedWorld
    = (Return (JsObject 3), w') ∧
    heap usedWorld !! 0%nat = Some (InMemoryTodoRepositoryObj oneTodo) ∧
    heap w' !! 0%nat = Some (InMemoryTodoRepositoryObj oneTodo) ∧
    heap w' !! 2%nat = Some (InMemoryTodoRepositoryObj JsMap.empty) ∧
    registry TheRepositoryInvoker usedWorld !! js "todoRepository"
    = Some (JsObject 0) ∧
    registry TheRepositoryInvoker w' !! js "todoRepository" ≠ Some (JsObject 0) ∧
    registry TheLogicInvoker w' !! js "todoLogic" = Some (JsObject 7).
Proof.
  destruct (reset_then_invoke usedWorld)
    as (w' & H1 & _ & _ & H4 & H5 & _ & _ & H8 & H9).
  exists w'. split; [exact H1|]. split; [reflexivity|].
  split; [exact (H5 0%nat _ eq_refl)|]. split; [exact H4|].
  split; [reflexivity|]. split.
  - apply (H8 (js "todoRepository") 0%nat). simpl. lia.
  - by rewrite H9.
Defined.
